(** * ardefi: the DEX indexer and the Pools view's price oracle

    A shallow embedding of the indexing pipeline (the Node indexer:
    [fetchAllPools], [processSwapEvents], [getTokenInfo],
    [getTokenPriceInUSD], [storeSwapEvents], [storePriceHistory],
    [storePoolData], [index], [run]) and of the two functions of the
    Pools view that price tokens and aggregate volume
    ([getTokenPriceInUSD] with indirect routes, [fetchMetricsFast]).

    Conventions of the embedding:
    - a chain read that rejects (RPC error, revert) is [None]; a
      [try]/[catch] is a [match] on that option;
    - a JavaScript [Number] is a [JsNum.num]: an exact rational, the two
      infinities or NaN.  Rounding to binary64 is not modelled; division
      by zero, NaN propagation and comparisons are;
    - a [uint256] decoded by the ABI layer is an [N]; block numbers and
      millisecond timestamps are [Z] (the cursor can be negative on a
      young chain);
    - the three tables of the store are lists of rows in insertion order;
      the columns the database fills by itself (id, created_at) and the
      trigger that stamps last_updated on an update are left out; the
      store answers every request (no store-side failure). *)

From stdpp Require Import gmap strings list sorting.
From Stdlib Require Import QArith Lqa.

Local Open Scope Z_scope.

(** ** JavaScript numbers *)

Module JsNum.

Inductive num : Type :=
| Fin (q : Q)
| PInf
| NInf
| NaN.

Definition zero : num := Fin 0%Q.
Definition one : num := Fin 1%Q.

Definition Qltb (a b : Q) : bool := negb (Qle_bool b a).
Definition Qis0 (a : Q) : bool := Qeq_bool a 0%Q.

(** Sign of a value, used by division and multiplication of infinities
    (the sign of a zero is not tracked). *)
Definition negative (a : num) : bool :=
  match a with
  | Fin q => Qltb q 0%Q
  | NInf => true
  | _ => false
  end.

Definition inf_of_sign (neg : bool) : num := if neg then NInf else PInf.

(** [a / b] *)
Definition div (a b : num) : num :=
  match a, b with
  | NaN, _ | _, NaN => NaN
  | Fin x, Fin y =>
      if Qis0 y then
        (if Qis0 x then NaN else inf_of_sign (Qltb x 0%Q))
      else Fin (x / y)%Q
  | Fin _, _ => zero
  | _, Fin _ => inf_of_sign (xorb (negative a) (negative b))
  | _, _ => NaN
  end.

(** [a * b] *)
Definition mul (a b : num) : num :=
  match a, b with
  | NaN, _ | _, NaN => NaN
  | Fin x, Fin y => Fin (x * y)%Q
  | Fin x, _ =>
      if Qis0 x then NaN else inf_of_sign (xorb (negative a) (negative b))
  | _, Fin y =>
      if Qis0 y then NaN else inf_of_sign (xorb (negative a) (negative b))
  | _, _ => inf_of_sign (xorb (negative a) (negative b))
  end.

(** [a + b] *)
Definition add (a b : num) : num :=
  match a, b with
  | NaN, _ | _, NaN => NaN
  | Fin x, Fin y => Fin (x + y)%Q
  | PInf, NInf | NInf, PInf => NaN
  | PInf, _ | _, PInf => PInf
  | NInf, _ | _, NInf => NInf
  end.

(** [a > b] *)
Definition gt (a b : num) : bool :=
  match a, b with
  | NaN, _ | _, NaN => false
  | Fin x, Fin y => Qltb y x
  | PInf, PInf => false
  | PInf, _ => true
  | _, NInf => match a with NInf => false | _ => true end
  | _, _ => false
  end.

(** Truthiness, as [x || d] and [if (x)] see it: 0 and NaN are falsy. *)
Definition truthy (a : num) : bool :=
  match a with
  | Fin q => negb (Qis0 q)
  | NaN => false
  | _ => true
  end.

(** [a || d] *)
Definition or_else (a d : num) : num := if truthy a then a else d.

(** [Number(n)] of a non-negative integer. *)
Definition of_N (n : N) : num := Fin (inject_Z (Z.of_N n)).

(** [10 ** d]: finite up to the exponent 308, [Infinity] above. *)
Definition pow10 (d : N) : num :=
  if (d <=? 308)%N then Fin (inject_Z (10 ^ Z.of_N d)) else PInf.

(** Equality of values up to the representation of the rational. *)
Definition eqb (a b : num) : bool :=
  match a, b with
  | Fin x, Fin y => Qeq_bool x y
  | PInf, PInf | NInf, NInf | NaN, NaN => true
  | _, _ => false
  end.


End JsNum.

Import JsNum.

(** ** Addresses and strings *)

Definition address : Type := string.

Definition lower_ascii (c : Ascii.ascii) : Ascii.ascii :=
  let n := Ascii.N_of_ascii c in
  if ((65 <=? n) && (n <=? 90))%N then Ascii.ascii_of_N (n + 32) else c.

(** [s.toLowerCase()] on the ASCII strings that addresses are. *)
Fixpoint toLowerCase (s : string) : string :=
  match s with
  | EmptyString => EmptyString
  | String c r => String (lower_ascii c) (toLowerCase r)
  end.

(** [s.slice(0, n)] *)
Fixpoint slice0 (n : nat) (s : string) : string :=
  match n, s with
  | S k, String c r => String c (slice0 k r)
  | _, _ => EmptyString
  end.

Definition USDC_ADDRESS : address := "0x3600000000000000000000000000000000000000".
Definition ZERO_ADDRESS : address := "0x0000000000000000000000000000000000000000".

(** ** The chain, as the readers see it during one cycle *)

Record SwapArgs : Type := {
  amountAIn : option N;
  amountBIn : option N;
  amountAOut : option N;
  amountBOut : option N;
}.

Record SwapLog : Type := {
  log_args : option SwapArgs;
  log_blockNumber : Z;
  log_transactionHash : string;
}.

Record PoolCreatedLog : Type := {
  created_pool : option address;
}.

Record Chain : Type := {
  allPoolsLength : option N;
  allPools : N -> option address;
  pool_tokenA : address -> option address;
  pool_tokenB : address -> option address;
  (** the pool contract's own counters *)
  pool_reserveA : address -> option N;
  pool_reserveB : address -> option N;
  erc20_symbol : address -> option string;
  erc20_decimals : address -> option N;
  (** [erc20_balanceOf token holder] *)
  erc20_balanceOf : address -> address -> option N;
  getBlockNumber : option Z;
  (** block timestamp in seconds *)
  getBlock : Z -> option Z;
  getLogs_Swap : address -> Z -> Z -> option (list SwapLog);
  getLogs_PoolCreated : Z -> Z -> option (list PoolCreatedLog);
}.

(** ** The store *)

Record SwapEventRow : Type := {
  se_tx_hash : string;
  se_pool_address : string;
  se_token_in : string;
  se_token_out : string;
  se_amount_in : N;
  se_amount_out : N;
  se_block_number : Z;
  (** milliseconds since the epoch *)
  se_timestamp : Z;
}.

Record PoolRow : Type := {
  pr_pool_address : string;
  pr_token_a : string;
  pr_token_b : string;
  pr_token_a_symbol : string;
  pr_token_b_symbol : string;
  pr_reserve_a : N;
  pr_reserve_b : N;
  pr_reserve_a_decimals : N;
  pr_reserve_b_decimals : N;
  pr_total_liquidity : num;
  pr_last_updated : Z;
}.

Record PriceRow : Type := {
  ph_pool_address : string;
  ph_token_a : string;
  ph_token_b : string;
  ph_token_a_symbol : string;
  ph_token_b_symbol : string;
  ph_price_a_per_b : num;
  ph_price_b_per_a : num;
  ph_reserve_a : N;
  ph_reserve_b : N;
  ph_timestamp : Z;
}.

Record Store : Type := {
  swap_events : list SwapEventRow;
  pools : list PoolRow;
  price_history : list PriceRow;
}.

Definition empty_store : Store :=
  {| swap_events := []; pools := []; price_history := [] |}.

Section Tables.
Context {R : Type} (key : R -> string).

Definition has_key (k : string) (tbl : list R) : bool :=
  existsb (fun r => bool_decide (key r = k)) tbl.

(** [.upsert(row, { onConflict: key })] on a column declared UNIQUE:
    the row with that key is overwritten in place, a new key is
    appended. *)
Definition upsert (row : R) (tbl : list R) : list R :=
  if has_key (key row) tbl
  then (fun r => if bool_decide (key r = key row) then row else r) <$> tbl
  else tbl ++ [row].

(** [.delete().eq(key, k)] *)
Definition delete_eq (k : string) (tbl : list R) : list R :=
  filter (fun r => key r <> k) tbl.

(** Number of rows carrying the key [k]. *)
Definition count_key (k : string) (tbl : list R) : nat :=
  length (filter (fun r => key r = k) tbl).
End Tables.

(** ** The indexer *)

Module Indexer.

Record TokenInfo : Type := {
  symbol : string;
  decimals : N;
}.

Definition KNOWN_TOKENS : list (string * TokenInfo) :=
  [ ("0x3600000000000000000000000000000000000000",
      {| symbol := "USDC"; decimals := 6 |});
    ("0x12dfe2bd72c55e7d91e0679da7c9cc5ecb5524e6",
      {| symbol := "RAC"; decimals := 18 |});
    ("0xa1456f93c2f36f97497f82cffbb2eac063465d5",
      {| symbol := "RACD"; decimals := 18 |});
    ("0xd472f90af8048f1b2bcd8f22784e900146cd9ecc",
      {| symbol := "RACA"; decimals := 18 |}) ].

Record SwapEvent : Type := {
  poolAddress : address;
  tokenIn : address;
  tokenOut : address;
  amountIn : N;
  amountOut : N;
  timestamp : Z;
  txHash : string;
  blockNumber : Z;
}.

Record IndexerState : Type := {
  knownPools : gset string;
  lastProcessedBlock : option Z;
}.

Inductive outcome : Type :=
| Completed
| Threw.

(** *** fetchAllPools *)

Fixpoint fetchAllPools_loop (c : Chain) (idx : list nat)
    (pools : list address) (known : gset string)
    : list address * gset string :=
  match idx with
  | [] => (pools, known)
  | i :: rest =>
      match allPools c (N.of_nat i) with
      | Some poolAddress =>
          if bool_decide (poolAddress <> "")
             && bool_decide (poolAddress <> ZERO_ADDRESS)
          then fetchAllPools_loop c rest (pools ++ [poolAddress])
                 ({[ toLowerCase poolAddress ]} ∪ known)
          else fetchAllPools_loop c rest pools known
      | None => fetchAllPools_loop c rest pools known
      end
  end.

Definition fetchAllPools (c : Chain) (known : gset string)
    : list address * gset string :=
  match allPoolsLength c with
  | Some poolCount =>
      fetchAllPools_loop c (seq 0 (N.to_nat poolCount)) [] known
  | None => ([], known)
  end.

(** *** processSwapEvents *)

(** [x || BigInt(0)] *)
Definition or0 (x : option N) : N := default 0%N x.

(** The direction of a swap: [(tokenIn, tokenOut, amountIn, amountOut)],
    or nothing when the loop goes on to the next log. *)
Definition swap_direction (tokenA tokenB : address) (args : SwapArgs)
    : option (address * address * N * N) :=
  let aAIn := or0 (amountAIn args) in
  let aBIn := or0 (amountBIn args) in
  let aAOut := or0 (amountAOut args) in
  let aBOut := or0 (amountBOut args) in
  if (0 <? aAIn)%N then Some (tokenA, tokenB, aAIn, aBOut)
  else if (0 <? aBIn)%N then Some (tokenB, tokenA, aBIn, aAOut)
  else None.

Fixpoint processSwapEvents_loop (c : Chain) (pool tokenA tokenB : address)
    (logs : list SwapLog) (events : list SwapEvent)
    : option (list SwapEvent) :=
  match logs with
  | [] => Some events
  | log :: rest =>
      match log_args log with
      | None => processSwapEvents_loop c pool tokenA tokenB rest events
      | Some args =>
          match swap_direction tokenA tokenB args with
          | None => processSwapEvents_loop c pool tokenA tokenB rest events
          | Some (tIn, tOut, aIn, aOut) =>
              block_ts ← getBlock c (log_blockNumber log);
              processSwapEvents_loop c pool tokenA tokenB rest
                (events ++
                 [ {| poolAddress := pool;
                      tokenIn := tIn;
                      tokenOut := tOut;
                      amountIn := aIn;
                      amountOut := aOut;
                      timestamp := block_ts * 1000;
                      txHash := log_transactionHash log;
                      blockNumber := log_blockNumber log |} ])
          end
      end
  end.

Definition processSwapEvents (c : Chain) (pool : address)
    (fromBlock toBlock : Z) : list SwapEvent :=
  let body :=
    logs ← getLogs_Swap c pool fromBlock toBlock;
    tokenA ← pool_tokenA c pool;
    tokenB ← pool_tokenB c pool;
    processSwapEvents_loop c pool tokenA tokenB logs [] in
  match body with
  | Some events => events
  | None => []
  end.

(** *** getTokenInfo *)

Fixpoint known_token (tokenLower : string) (l : list (string * TokenInfo))
    : option TokenInfo :=
  match l with
  | [] => None
  | (addr, info) :: rest =>
      if bool_decide (toLowerCase addr = tokenLower) then Some info
      else known_token tokenLower rest
  end.

Definition pseudo_symbol (tokenAddress : address) : string :=
  slice0 6 tokenAddress +:+ "...".

Definition getTokenInfo (c : Chain) (tokenAddress : address) : TokenInfo :=
  match known_token (toLowerCase tokenAddress) KNOWN_TOKENS with
  | Some info => info
  | None =>
      let sym := erc20_symbol c tokenAddress in
      let dec := default 18%N (erc20_decimals c tokenAddress) in
      {| symbol :=
           match sym with
           | Some s => if bool_decide (s = "") then pseudo_symbol tokenAddress
                       else s
           | None => pseudo_symbol tokenAddress
           end;
         decimals := if (dec =? 0)%N then 18%N else dec |}
  end.

(** [Number(r) / (10 ** d)] *)
Definition formatted (r d : N) : num := div (of_N r) (pow10 d).

(** *** getTokenPriceInUSD ("simplified - use USDC as base") *)

(** What one iteration of the loop over the pools does: [None] when a
    read rejects (the [catch] then continues), [Some None] when the
    body falls through, [Some (Some p)] when it returns [p]. *)
Definition usdc_pair_price (c : Chain) (tokenAddress pool : address)
    : option (option num) :=
  tokenA ← pool_tokenA c pool;
  tokenB ← pool_tokenB c pool;
  let tokenALower := toLowerCase tokenA in
  let tokenBLower := toLowerCase tokenB in
  let tokenAddrLower := toLowerCase tokenAddress in
  if bool_decide (tokenALower = toLowerCase USDC_ADDRESS)
     && bool_decide (tokenBLower = tokenAddrLower)
  then
    reserveA ← pool_reserveA c pool;
    reserveB ← pool_reserveB c pool;
    let tokenInfo := getTokenInfo c tokenB in
    let reserveAFormatted := formatted reserveA 6 in
    let reserveBFormatted := formatted reserveB (decimals tokenInfo) in
    if gt reserveBFormatted zero
    then Some (Some (div reserveAFormatted reserveBFormatted))
    else Some None
  else if bool_decide (tokenBLower = toLowerCase USDC_ADDRESS)
          && bool_decide (tokenALower = tokenAddrLower)
  then
    reserveA ← pool_reserveA c pool;
    reserveB ← pool_reserveB c pool;
    let tokenInfo := getTokenInfo c tokenA in
    let reserveAFormatted := formatted reserveA (decimals tokenInfo) in
    let reserveBFormatted := formatted reserveB 6 in
    if gt reserveAFormatted zero
    then Some (Some (div reserveBFormatted reserveAFormatted))
    else Some None
  else Some None.

Fixpoint getTokenPriceInUSD_loop (c : Chain) (tokenAddress : address)
    (pools : list address) : num :=
  match pools with
  | [] => zero
  | pool :: rest =>
      match usdc_pair_price c tokenAddress pool with
      | Some (Some price) => price
      | _ => getTokenPriceInUSD_loop c tokenAddress rest
      end
  end.

Definition getTokenPriceInUSD (c : Chain) (tokenAddress : address)
    (pools : list address) : num :=
  if bool_decide (toLowerCase tokenAddress = toLowerCase USDC_ADDRESS)
  then one
  else getTokenPriceInUSD_loop c tokenAddress pools.

(** *** storeSwapEvents *)

Definition swap_row (event : SwapEvent) : SwapEventRow :=
  {| se_tx_hash := txHash event;
     se_pool_address := toLowerCase (poolAddress event);
     se_token_in := toLowerCase (tokenIn event);
     se_token_out := toLowerCase (tokenOut event);
     se_amount_in := amountIn event;
     se_amount_out := amountOut event;
     se_block_number := blockNumber event;
     se_timestamp := timestamp event |}.

Definition storeSwapEvents (events : list SwapEvent) (st : Store) : Store :=
  {| swap_events :=
       foldl (fun tbl event => upsert se_tx_hash (swap_row event) tbl)
             (swap_events st) events;
     pools := pools st;
     price_history := price_history st |}.

(** *** storePriceHistory *)

(** The select on [price_history]: the rows of the pool, latest first,
    limited to one; only the timestamp is read. *)
Definition last_snapshot (pool : string) (tbl : list PriceRow) : option Z :=
  foldr (fun r acc =>
           if bool_decide (ph_pool_address r = pool)
           then Some (match acc with
                      | Some t => Z.max t (ph_timestamp r)
                      | None => ph_timestamp r
                      end)
           else acc)
        None tbl.

(** The insert on [price_history], with UNIQUE(pool_address, timestamp):
    a duplicate key is refused and leaves the table as it was. *)
Definition insert_price (row : PriceRow) (tbl : list PriceRow)
    : list PriceRow :=
  if existsb (fun r => bool_decide (ph_pool_address r = ph_pool_address row)
                       && bool_decide (ph_timestamp r = ph_timestamp row)) tbl
  then tbl
  else tbl ++ [row].

(** The clock is read through a counter: the [k]-th [new Date()] of the
    process returns [clock k]. *)
Definition storePriceHistory (clock : nat -> Z) (sk : Store * nat)
    (pool tokenA tokenB : address) (tokenAInfo tokenBInfo : TokenInfo)
    (reserveA reserveB : N) : Store * nat :=
  let '(st, k) := sk in
  let reserveAFormatted := formatted reserveA (decimals tokenAInfo) in
  let reserveBFormatted := formatted reserveB (decimals tokenBInfo) in
  let priceAperB := div reserveBFormatted reserveAFormatted in
  let priceBperA := div reserveAFormatted reserveBFormatted in
  let now := clock k in
  let lastSnapshot := last_snapshot (toLowerCase pool) (price_history st) in
  let due :=
    match lastSnapshot with
    | None => true
    | Some t => 60000 <? now - t
    end in
  if due then
    ({| swap_events := swap_events st;
        pools := pools st;
        price_history :=
          insert_price
            {| ph_pool_address := toLowerCase pool;
               ph_token_a := toLowerCase tokenA;
               ph_token_b := toLowerCase tokenB;
               ph_token_a_symbol := symbol tokenAInfo;
               ph_token_b_symbol := symbol tokenBInfo;
               ph_price_a_per_b := priceAperB;
               ph_price_b_per_a := priceBperA;
               ph_reserve_a := reserveA;
               ph_reserve_b := reserveB;
               ph_timestamp := now |}
            (price_history st) |}, S k)
  else (st, S k).

(** *** storePoolData *)

(** 0.000001 *)
Definition DUST : num := Fin (1 # 1000000).

Record PoolReads : Type := {
  rd_tokenA : address;
  rd_tokenB : address;
  rd_reserveA : N;
  rd_reserveB : N;
}.

(** The reads at the head of an iteration of [storePoolData], in the
    order of the source; any of them rejecting ends the iteration. *)
Definition read_pool (c : Chain) (pool : address) : option PoolReads :=
  _ ← getBlockNumber c;
  tokenA ← pool_tokenA c pool;
  tokenB ← pool_tokenB c pool;
  reserveA ← erc20_balanceOf c tokenA pool;
  reserveB ← erc20_balanceOf c tokenB pool;
  Some {| rd_tokenA := tokenA; rd_tokenB := tokenB;
          rd_reserveA := reserveA; rd_reserveB := reserveB |}.

(** The pool has liquidity: both formatted reserves exceed 0.000001. *)
Definition has_liquidity (tokenAInfo tokenBInfo : TokenInfo)
    (reserveA reserveB : N) : bool :=
  gt (formatted reserveA (decimals tokenAInfo)) DUST
  && gt (formatted reserveB (decimals tokenBInfo)) DUST.

Definition storePoolData_pool (c : Chain) (clock : nat -> Z)
    (all : list address) (sk : Store * nat) (pool : address)
    : Store * nat :=
  match read_pool c pool with
  | None => sk
  | Some rd =>
      let '(st, k) := sk in
      let tokenA := rd_tokenA rd in
      let tokenB := rd_tokenB rd in
      let reserveA := rd_reserveA rd in
      let reserveB := rd_reserveB rd in
      let tokenAInfo := getTokenInfo c tokenA in
      let tokenBInfo := getTokenInfo c tokenB in
      let tokenAPrice := getTokenPriceInUSD c tokenA all in
      let tokenBPrice := getTokenPriceInUSD c tokenB all in
      let reserveAFormatted := formatted reserveA (decimals tokenAInfo) in
      let reserveBFormatted := formatted reserveB (decimals tokenBInfo) in
      let reserveAValue := mul reserveAFormatted tokenAPrice in
      let reserveBValue := mul reserveBFormatted tokenBPrice in
      let totalLiquidity := add reserveAValue reserveBValue in
      if has_liquidity tokenAInfo tokenBInfo reserveA reserveB then
        let row :=
          {| pr_pool_address := toLowerCase pool;
             pr_token_a := toLowerCase tokenA;
             pr_token_b := toLowerCase tokenB;
             pr_token_a_symbol := symbol tokenAInfo;
             pr_token_b_symbol := symbol tokenBInfo;
             pr_reserve_a := reserveA;
             pr_reserve_b := reserveB;
             pr_reserve_a_decimals := decimals tokenAInfo;
             pr_reserve_b_decimals := decimals tokenBInfo;
             pr_total_liquidity := totalLiquidity;
             pr_last_updated := clock k |} in
        let st1 :=
          {| swap_events := swap_events st;
             pools := upsert pr_pool_address row (pools st);
             price_history := price_history st |} in
        storePriceHistory clock (st1, S k) pool tokenA tokenB
          tokenAInfo tokenBInfo reserveA reserveB
      else
        ({| swap_events := swap_events st;
            pools := delete_eq pr_pool_address (toLowerCase pool) (pools st);
            price_history := price_history st |}, k)
  end.

Definition storePoolData (c : Chain) (clock : nat -> Z)
    (all : list address) (sk : Store * nat) : Store * nat :=
  foldl (storePoolData_pool c clock all) sk all.

(** *** index *)

(** [!lastProcessedBlock]: [null] and [0n] are both falsy. *)
Definition cursor_unset (cursor : option Z) : bool :=
  match cursor with
  | None => true
  | Some b => b =? 0
  end.

Definition add_created_pool (acc : list address * gset string)
    (log : PoolCreatedLog) : list address * gset string :=
  match created_pool log with
  | Some newPool =>
      if bool_decide (newPool <> "")
         && bool_decide (toLowerCase newPool ∉ acc.2)
      then (acc.1 ++ [newPool], {[ toLowerCase newPool ]} ∪ acc.2)
      else acc
  | None => acc
  end.

Record World : Type := {
  w_state : IndexerState;
  w_store : Store;
  w_ticks : nat;
}.

Definition index (c : Chain) (clock : nat -> Z) (w : World)
    : World * outcome :=
  let '(pools0, known0) := fetchAllPools c (knownPools (w_state w)) in
  match getBlockNumber c with
  | None =>
      ({| w_state := {| knownPools := known0;
                        lastProcessedBlock :=
                          lastProcessedBlock (w_state w) |};
          w_store := w_store w;
          w_ticks := w_ticks w |}, Threw)
  | Some currentBlock =>
      let cursor0 :=
        if cursor_unset (lastProcessedBlock (w_state w))
        then currentBlock - 10000
        else default 0 (lastProcessedBlock (w_state w)) in
      let fromBlock := cursor0 + 1 in
      let toBlock := currentBlock in
      let allSwapEvents :=
        if fromBlock <=? toBlock
        then concat (map (fun pool =>
                            processSwapEvents c pool fromBlock toBlock)
                         pools0)
        else [] in
      let created :=
        if fromBlock <=? toBlock
        then logs ← getLogs_PoolCreated c fromBlock toBlock;
             Some (foldl add_created_pool (pools0, known0) logs)
        else Some (pools0, known0) in
      match created with
      | None =>
          ({| w_state := {| knownPools := known0;
                            lastProcessedBlock := Some cursor0 |};
              w_store := w_store w;
              w_ticks := w_ticks w |}, Threw)
      | Some (pools1, known1) =>
          let cursor1 :=
            if fromBlock <=? toBlock then toBlock else cursor0 in
          let st1 :=
            match allSwapEvents with
            | [] => w_store w
            | _ => storeSwapEvents allSwapEvents (w_store w)
            end in
          let '(st2, k2) :=
            match pools1 with
            | [] => (st1, w_ticks w)
            | _ => storePoolData c clock pools1 (st1, w_ticks w)
            end in
          ({| w_state := {| knownPools := known1;
                            lastProcessedBlock := Some cursor1 |};
              w_store := st2;
              w_ticks := k2 |}, Completed)
      end
  end.

(** *** run *)

(** The polling loop over a finite prefix of cycles, each seeing the
    chain as it is then; an exception of [index] is logged and the loop
    goes on. *)
Definition run (clock : nat -> Z) (cycles : list Chain) (w : World)
    : World :=
  foldl (fun w c => (index c clock w).1) w cycles.

End Indexer.

(** ** The Pools view: price routes and volume metrics *)

Module PoolsView.

Record PoolInfo : Type := {
  tokenA : address;
  tokenB : address;
  tokenASymbol : string;
  tokenBSymbol : string;
  poolAddress : address;
}.

(** The table [TOKENS]: symbol, address, decimals. *)
Definition TOKENS : list (string * (address * N)) :=
  [ ("SRAC", ("0x49cd69442dB073E7b94B0124e316AB7C68b95988", 18%N));
    ("RACS", ("0x6E63e2cABECCe5c3A1c37b79A958a9542076A1e3", 18%N));
    ("SACS", ("0x63F856fBAB3535174bFaFD6EFd720C634d6FD458", 18%N));
    ("USDC", (USDC_ADDRESS, 6%N)) ].

(** [Object.entries(TOKENS).find(...)?.[1]?.decimals || 18] *)
Definition token_decimals (token : address) : N :=
  match List.find (fun e => bool_decide (toLowerCase e.2.1 = toLowerCase token))
                  TOKENS with
  | Some e => if (e.2.2 =? 0)%N then 18%N else e.2.2
  | None => 18%N
  end.

(** [parseFloat(formatUnits(r, d))] *)
Definition formatted (r d : N) : num := div (of_N r) (pow10 d).

(** The two [balanceOf] reads of a pool, formatted with the decimals of
    the table; [None] when a read rejects. *)
Definition read_reserves (c : Chain) (pool : PoolInfo) : option (num * num) :=
  reserveA ← erc20_balanceOf c (tokenA pool) (poolAddress pool);
  reserveB ← erc20_balanceOf c (tokenB pool) (poolAddress pool);
  Some (formatted reserveA (token_decimals (tokenA pool)),
        formatted reserveB (token_decimals (tokenB pool))).

(** First loop: a pool pairing the token with USDC.  [Some p]: the
    function returns [p]; [None]: the loop ended without returning. *)
Fixpoint direct_loop (c : Chain) (tokenAddrLower : string)
    (allPools : list PoolInfo) : option num :=
  match allPools with
  | [] => None
  | pool :: rest =>
      let tA := toLowerCase (tokenA pool) in
      let tB := toLowerCase (tokenB pool) in
      let usdcAddress := toLowerCase USDC_ADDRESS in
      if bool_decide (tA = usdcAddress) || bool_decide (tB = usdcAddress)
      then
        let otherToken := if bool_decide (tA = usdcAddress) then tB else tA in
        if bool_decide (otherToken = tokenAddrLower) then
          match read_reserves c pool with
          | Some (reserveAFormatted, reserveBFormatted) =>
              if bool_decide (tA = usdcAddress)
              then Some (or_else (div reserveAFormatted reserveBFormatted) zero)
              else Some (or_else (div reserveBFormatted reserveAFormatted) zero)
          | None => direct_loop c tokenAddrLower rest
          end
        else direct_loop c tokenAddrLower rest
      else direct_loop c tokenAddrLower rest
  end.

(** The pool contains the token and has no USDC side. *)
Definition pairs_without_usdc (tokenAddrLower : string) (pool : PoolInfo)
    : bool :=
  let tA := toLowerCase (tokenA pool) in
  let tB := toLowerCase (tokenB pool) in
  let usdcAddress := toLowerCase USDC_ADDRESS in
  (bool_decide (tA = tokenAddrLower) || bool_decide (tB = tokenAddrLower))
  && bool_decide (tA <> usdcAddress) && bool_decide (tB <> usdcAddress).

Definition intermediate_of (tokenAddrLower : string) (pool : PoolInfo)
    : address :=
  if bool_decide (toLowerCase (tokenA pool) = tokenAddrLower)
  then toLowerCase (tokenB pool)
  else toLowerCase (tokenA pool).

(** The token's price in the intermediate token, from the formatted
    reserves of the pool. *)
Definition relative_price (tokenAddrLower : string) (pool : PoolInfo)
    (reserves : num * num) : num :=
  if bool_decide (toLowerCase (tokenA pool) = tokenAddrLower)
  then div reserves.2 reserves.1
  else div reserves.1 reserves.2.

(** Second loop: a route through an intermediate token, whose price the
    recursive call [rec] gives.  The outer [None] is a recursive call
    that has not returned. *)
Fixpoint indirect_loop (rec : address -> option num) (c : Chain)
    (tokenAddrLower : string) (allPools : list PoolInfo) : option num :=
  match allPools with
  | [] => Some zero
  | pool :: rest =>
      if pairs_without_usdc tokenAddrLower pool then
        intermediatePrice ← rec (intermediate_of tokenAddrLower pool);
        if gt intermediatePrice zero then
          match read_reserves c pool with
          | Some reserves =>
              Some (mul (relative_price tokenAddrLower pool reserves)
                        intermediatePrice)
          | None => indirect_loop rec c tokenAddrLower rest
          end
        else indirect_loop rec c tokenAddrLower rest
      else indirect_loop rec c tokenAddrLower rest
  end.

(** [getTokenPriceInUSD], with the depth of the recursion bounded by
    [fuel]: [None] means the call is still running at that depth. *)
Fixpoint getTokenPriceInUSD (fuel : nat) (c : Chain)
    (tokenAddress : address) (allPools : list PoolInfo) : option num :=
  match fuel with
  | O => None
  | S n =>
      if bool_decide (toLowerCase tokenAddress = toLowerCase USDC_ADDRESS)
      then Some one
      else
        match direct_loop c (toLowerCase tokenAddress) allPools with
        | Some price => Some price
        | None =>
            indirect_loop (fun t => getTokenPriceInUSD n c t allPools)
                          c (toLowerCase tokenAddress) allPools
        end
  end.

(** *** fetchMetricsFast *)

Definition THIRTY_DAYS : Z := 30 * 24 * 60 * 60 * 1000.

(** The request to the store: the events of the last thirty days,
    oldest first ([older]), at most 10000 of them ([select_recent]). *)
Definition older (a b : SwapEventRow) : Prop :=
  se_timestamp a <= se_timestamp b.

#[export] Instance older_dec (a b : SwapEventRow) : Decision (older a b) :=
  decide (se_timestamp a <= se_timestamp b).

Definition select_recent (now : Z) (tbl : list SwapEventRow)
    : list SwapEventRow :=
  take (Z.to_nat 10000)
    (merge_sort older
       (filter (fun r => now - THIRTY_DAYS <= se_timestamp r) tbl)).








(** *** fetchPools *)

(** 0.000001 *)
Definition DUST : num := Fin (1 # 1000000).

Definition pseudo_symbol (token : address) : string :=
  slice0 6 token +:+ "...".

(** The symbol of a token: the read, the truncated address when the read
    rejects or answers the empty string. *)
Definition read_symbol (c : Chain) (token : address) : string :=
  let s := default (pseudo_symbol token) (erc20_symbol c token) in
  if bool_decide (s = "") then pseudo_symbol token else s.

(** One iteration of the loop over the factory's indices: [None] when a
    read rejects (caught and logged), [Some None] on [continue],
    [Some (Some pool)] when the pool is pushed. *)
Definition pool_at (c : Chain) (i : nat) : option (option PoolInfo) :=
  pa ← allPools c (N.of_nat i);
  if bool_decide (pa = "") || bool_decide (pa = ZERO_ADDRESS)
  then Some None
  else
    tA ← pool_tokenA c pa;
    tB ← pool_tokenB c pa;
    Some (Some {| tokenA := tA;
                  tokenB := tB;
                  tokenASymbol := read_symbol c tA;
                  tokenBSymbol := read_symbol c tB;
                  poolAddress := pa |}).

Fixpoint poolList_loop (c : Chain) (idx : list nat)
    (poolList : list PoolInfo) : list PoolInfo :=
  match idx with
  | [] => poolList
  | i :: rest =>
      match pool_at c i with
      | Some (Some pool) => poolList_loop c rest (poolList ++ [pool])
      | _ => poolList_loop c rest poolList
      end
  end.

(** The liquidity test of a pool: the two balances and the supply of LP
    tokens, each formatted, all above 0.000001; a rejected read fails the
    test.  [totalSupply] is the read of the pool's LP supply. *)
Definition with_liquidity (c : Chain) (totalSupply : address -> option N)
    (pool : PoolInfo) : bool :=
  let reads :=
    reserveA ← erc20_balanceOf c (tokenA pool) (poolAddress pool);
    reserveB ← erc20_balanceOf c (tokenB pool) (poolAddress pool);
    supply ← totalSupply (poolAddress pool);
    Some (reserveA, reserveB, supply) in
  match reads with
  | Some (reserveA, reserveB, supply) =>
      gt (formatted reserveA (token_decimals (tokenA pool))) DUST
      && gt (formatted reserveB (token_decimals (tokenB pool))) DUST
      && gt (formatted supply 18) DUST
  | None => false
  end.

Fixpoint poolsWithLiquidity_loop (c : Chain)
    (totalSupply : address -> option N) (poolList : list PoolInfo)
    (poolsWithLiquidity : list PoolInfo) : list PoolInfo :=
  match poolList with
  | [] => poolsWithLiquidity
  | pool :: rest =>
      if with_liquidity c totalSupply pool
      then poolsWithLiquidity_loop c totalSupply rest
             (poolsWithLiquidity ++ [pool])
      else poolsWithLiquidity_loop c totalSupply rest poolsWithLiquidity
  end.

(** [fetchFromRPC], for the pool count the factory gave. *)
Definition fetchPools (c : Chain) (totalSupply : address -> option N)
    (poolCountNum : nat) : list PoolInfo :=
  poolsWithLiquidity_loop c totalSupply
    (poolList_loop c (seq 0 poolCountNum) []) [].

(** *** calculateMetrics *)

(** [uniqueTokens.add(t)] on a set that is iterated in insertion order. *)
Definition add_token (seen : list string) (t : string) : list string :=
  if bool_decide (t ∈ seen) then seen else seen ++ [t].

Definition uniqueTokens (pools : list PoolInfo) : list string :=
  foldl (fun seen pool =>
           add_token (add_token seen (toLowerCase (tokenA pool)))
                     (toLowerCase (tokenB pool)))
        [] pools.

(** The map of prices, one resolution per token; [None] while one of the
    resolutions has not returned. *)
Definition tokenPrices (fuel : nat) (c : Chain) (pools : list PoolInfo)
    : option (gmap string num) :=
  foldl (fun acc token =>
           m ← acc;
           price ← getTokenPriceInUSD fuel c token pools;
           Some (<[ token := price ]> m))
        (Some ∅) (uniqueTokens pools).

(** [tokenPrices.get(t) || 0] *)
Definition price_of (prices : gmap string num) (token : address) : num :=
  or_else (default zero (prices !! toLowerCase token)) zero.

(** The value of one pool: [None] when a balance read rejects. *)
Definition poolTVL (c : Chain) (prices : gmap string num) (pool : PoolInfo)
    : option num :=
  reserves ← read_reserves c pool;
  let priceA := price_of prices (tokenA pool) in
  let priceB := price_of prices (tokenB pool) in
  Some (add (mul reserves.1 (or_else priceA one))
            (mul reserves.2 (or_else priceB one))).

Definition calculateMetrics (fuel : nat) (c : Chain) (pools : list PoolInfo)
    : option num :=
  match pools with
  | [] => Some zero
  | _ =>
      prices ← tokenPrices fuel c pools;
      Some (foldl (fun totalTVL pool =>
                     match poolTVL c prices pool with
                     | Some v => add totalTVL v
                     | None => totalTVL
                     end)
                  zero pools)
  end.

End PoolsView.

(** ** Chains and stores used as examples *)

Module Fixtures.

Record PoolFixture : Type := {
  fx_pool : address;
  fx_tokenA : address;
  fx_tokenB : address;
  (** what the pool contract's [reserveA()] and [reserveB()] answer *)
  fx_counterA : N;
  fx_counterB : N;
  (** what the two tokens' [balanceOf(pool)] answer *)
  fx_balanceA : N;
  fx_balanceB : N;
}.

Definition fixture_of (fxs : list PoolFixture) (pool : address)
    : option PoolFixture :=
  List.find (fun fx => bool_decide (fx_pool fx = pool)) fxs.

Definition balance_in (fxs : list PoolFixture) (token holder : address)
    : option N :=
  fx ← fixture_of fxs holder;
  if bool_decide (token = fx_tokenA fx) then Some (fx_balanceA fx)
  else if bool_decide (token = fx_tokenB fx) then Some (fx_balanceB fx)
  else Some 0%N.

(** A chain holding the pools [fxs], with head block [head]; the
    Swap-log query of a pool answers [swaps pool]; every token has 18
    decimals unless the indexer knows better. *)
Definition chain_of (fxs : list PoolFixture) (head : option Z)
    (swaps : address -> option (list SwapLog)) : Chain :=
  {| allPoolsLength := Some (N.of_nat (length fxs));
     allPools := fun i => fx_pool <$> fxs !! N.to_nat i;
     pool_tokenA := fun pool => fx_tokenA <$> fixture_of fxs pool;
     pool_tokenB := fun pool => fx_tokenB <$> fixture_of fxs pool;
     pool_reserveA := fun pool => fx_counterA <$> fixture_of fxs pool;
     pool_reserveB := fun pool => fx_counterB <$> fixture_of fxs pool;
     erc20_symbol := fun _ => Some "TKN";
     erc20_decimals := fun _ => Some 18%N;
     erc20_balanceOf := balance_in fxs;
     getBlockNumber := head;
     getBlock := fun _ => Some 1700000000;
     getLogs_Swap := fun pool _ _ => swaps pool;
     getLogs_PoolCreated := fun _ _ => Some [] |}.

Definition TKN : address := "0xabc0000000000000000000000000000000000001".
Definition MID : address := "0xabc0000000000000000000000000000000000002".
Definition FAR : address := "0xabc0000000000000000000000000000000000003".
Definition P1 : address := "0xf000000000000000000000000000000000000001".
Definition P2 : address := "0xf000000000000000000000000000000000000002".
Definition P3 : address := "0xf000000000000000000000000000000000000003".

Definition swap_a_in : SwapLog :=
  {| log_args := Some {| amountAIn := Some 5%N; amountBIn := Some 0%N;
                         amountAOut := Some 0%N; amountBOut := Some 7%N |};
     log_blockNumber := 103;
     log_transactionHash := "0xabc" |}.

Definition swap_b_in : SwapLog :=
  {| log_args := Some {| amountAIn := Some 0%N; amountBIn := Some 9%N;
                         amountAOut := Some 4%N; amountBOut := Some 0%N |};
     log_blockNumber := 104;
     log_transactionHash := "0xdef" |}.

Definition swap_none_in : SwapLog :=
  {| log_args := Some {| amountAIn := Some 0%N; amountBIn := Some 0%N;
                         amountAOut := Some 1%N; amountBOut := Some 1%N |};
     log_blockNumber := 104;
     log_transactionHash := "0x123" |}.

(** USDC/TKN pool holding 1000 USDC and 500 TKN; the contract's own
    counter of USDC has drifted to 2000. *)
Definition drifted_pool : PoolFixture :=
  {| fx_pool := P1; fx_tokenA := USDC_ADDRESS; fx_tokenB := TKN;
     fx_counterA := 2000 * 10 ^ 6; fx_counterB := 500 * 10 ^ 18;
     fx_balanceA := 1000 * 10 ^ 6; fx_balanceB := 500 * 10 ^ 18 |}.

Definition drifted_chain : Chain :=
  chain_of [drifted_pool] (Some 105)
    (fun _ => Some [swap_a_in; swap_none_in; swap_b_in]).

(** The same chain while the Swap-log query of the pool rejects. *)
Definition logs_down_chain : Chain :=
  chain_of [drifted_pool] (Some 105) (fun _ => None).

(** USDC/TKN pool from which all TKN has been taken: 1000 USDC, 0 TKN. *)
Definition one_sided_pool : PoolFixture :=
  {| fx_pool := P1; fx_tokenA := USDC_ADDRESS; fx_tokenB := TKN;
     fx_counterA := 1000 * 10 ^ 6; fx_counterB := 0;
     fx_balanceA := 1000 * 10 ^ 6; fx_balanceB := 0 |}.

Definition one_sided_chain : Chain :=
  chain_of [one_sided_pool] (Some 105) (fun _ => Some []).

(** TKN/MID pool (300 MID for 100 TKN) and MID/USDC pool (2000 USDC
    for 1000 MID): TKN is worth 3 MID, MID 2 USD. *)
Definition tkn_mid_pool : PoolFixture :=
  {| fx_pool := P1; fx_tokenA := TKN; fx_tokenB := MID;
     fx_counterA := 100 * 10 ^ 18; fx_counterB := 300 * 10 ^ 18;
     fx_balanceA := 100 * 10 ^ 18; fx_balanceB := 300 * 10 ^ 18 |}.

Definition mid_usdc_pool : PoolFixture :=
  {| fx_pool := P2; fx_tokenA := MID; fx_tokenB := USDC_ADDRESS;
     fx_counterA := 1000 * 10 ^ 18; fx_counterB := 2000 * 10 ^ 6;
     fx_balanceA := 1000 * 10 ^ 18; fx_balanceB := 2000 * 10 ^ 6 |}.

Definition two_hop_chain : Chain :=
  chain_of [tkn_mid_pool; mid_usdc_pool] (Some 105) (fun _ => Some []).

Definition pool_info (fx : PoolFixture) : PoolsView.PoolInfo :=
  {| PoolsView.tokenA := fx_tokenA fx;
     PoolsView.tokenB := fx_tokenB fx;
     PoolsView.tokenASymbol := "A";
     PoolsView.tokenBSymbol := "B";
     PoolsView.poolAddress := fx_pool fx |}.

Definition two_hop_pools : list PoolsView.PoolInfo :=
  [pool_info tkn_mid_pool; pool_info mid_usdc_pool].

(** TKN/MID, MID/FAR, FAR/TKN: a cycle with no USDC side. *)
Definition cycle_pools : list PoolsView.PoolInfo :=
  [ pool_info {| fx_pool := P1; fx_tokenA := TKN; fx_tokenB := MID;
                 fx_counterA := 1; fx_counterB := 1;
                 fx_balanceA := 1; fx_balanceB := 1 |};
    pool_info {| fx_pool := P2; fx_tokenA := MID; fx_tokenB := FAR;
                 fx_counterA := 1; fx_counterB := 1;
                 fx_balanceA := 1; fx_balanceB := 1 |};
    pool_info {| fx_pool := P3; fx_tokenA := FAR; fx_tokenB := TKN;
                 fx_counterA := 1; fx_counterB := 1;
                 fx_balanceA := 1; fx_balanceB := 1 |} ].

Definition clock10 (k : nat) : Z := 1700000000000 + Z.of_nat k * 10000.

Definition fresh_world (cursor : option Z) : Indexer.World :=
  {| Indexer.w_state := {| Indexer.knownPools := ∅;
                           Indexer.lastProcessedBlock := cursor |};
     Indexer.w_store := empty_store;
     Indexer.w_ticks := 0 |}.


(** The drifted chain while the block 104 cannot be read. *)
Definition block_104_down_chain : Chain :=
  {| allPoolsLength := allPoolsLength drifted_chain;
     allPools := allPools drifted_chain;
     pool_tokenA := pool_tokenA drifted_chain;
     pool_tokenB := pool_tokenB drifted_chain;
     pool_reserveA := pool_reserveA drifted_chain;
     pool_reserveB := pool_reserveB drifted_chain;
     erc20_symbol := erc20_symbol drifted_chain;
     erc20_decimals := erc20_decimals drifted_chain;
     erc20_balanceOf := erc20_balanceOf drifted_chain;
     getBlockNumber := getBlockNumber drifted_chain;
     getBlock := fun b => if b =? 104 then None else Some 1700000000;
     getLogs_Swap := getLogs_Swap drifted_chain;
     getLogs_PoolCreated := getLogs_PoolCreated drifted_chain |}.

(** The row of the drifted pool in the pools table, written at the first
    reading of the clock. *)
Definition drifted_pool_row : PoolRow :=
  {| pr_pool_address := P1;
     pr_token_a := USDC_ADDRESS;
     pr_token_b := TKN;
     pr_token_a_symbol := "USDC";
     pr_token_b_symbol := "TKN";
     pr_reserve_a := 1000 * 10 ^ 6;
     pr_reserve_b := 500 * 10 ^ 18;
     pr_reserve_a_decimals := 6;
     pr_reserve_b_decimals := 18;
     pr_total_liquidity :=
       add (mul (Indexer.formatted (1000 * 10 ^ 6) 6) one)
           (mul (Indexer.formatted (500 * 10 ^ 18) 18)
                (div (Indexer.formatted (2000 * 10 ^ 6) 6)
                     (Indexer.formatted (500 * 10 ^ 18) 18)));
     pr_last_updated := clock10 0 |}.

(** Two swaps of one transaction, through the same pool. *)
Definition first_leg : Indexer.SwapEvent :=
  {| Indexer.poolAddress := P1;
     Indexer.tokenIn := USDC_ADDRESS;
     Indexer.tokenOut := TKN;
     Indexer.amountIn := 5;
     Indexer.amountOut := 7;
     Indexer.timestamp := 1700000000000;
     Indexer.txHash := "0xabc";
     Indexer.blockNumber := 103 |}.

Definition second_leg : Indexer.SwapEvent :=
  {| Indexer.poolAddress := P1;
     Indexer.tokenIn := TKN;
     Indexer.tokenOut := USDC_ADDRESS;
     Indexer.amountIn := 7;
     Indexer.amountOut := 4;
     Indexer.timestamp := 1700000000000;
     Indexer.txHash := "0xabc";
     Indexer.blockNumber := 103 |}.

(** Every pool has issued 10 LP tokens. *)
Definition ten_lp_tokens (pool : address) : option N :=
  Some (10 * 10 ^ 18)%N.

End Fixtures.

(** ** Terms of the statements *)

(** The record prescribed for a Swap log: the direction is given by the
    non-zero "in" amount, tokenA first; a log with both "in" amounts
    zero, or one that could not be decoded, has no record. *)
Definition prescribed_record (c : Chain) (pool tokenA tokenB : address)
    (log : SwapLog) : option Indexer.SwapEvent :=
  args ← log_args log;
  block_ts ← getBlock c (log_blockNumber log);
  let record tIn tOut aIn aOut :=
    {| Indexer.poolAddress := pool;
       Indexer.tokenIn := tIn;
       Indexer.tokenOut := tOut;
       Indexer.amountIn := aIn;
       Indexer.amountOut := aOut;
       Indexer.timestamp := block_ts * 1000;
       Indexer.txHash := log_transactionHash log;
       Indexer.blockNumber := log_blockNumber log |} in
  if bool_decide (Indexer.or0 (amountAIn args) <> 0%N)
  then Some (record tokenA tokenB (Indexer.or0 (amountAIn args))
                                  (Indexer.or0 (amountBOut args)))
  else if bool_decide (Indexer.or0 (amountBIn args) <> 0%N)
  then Some (record tokenB tokenA (Indexer.or0 (amountBIn args))
                                  (Indexer.or0 (amountAOut args)))
  else None.









(** The two tokens of a pool are USDC and the token. *)
Definition direct_pair (token tA tB : address) : Prop :=
  (toLowerCase tA = toLowerCase USDC_ADDRESS
   /\ toLowerCase tB = toLowerCase token)
  \/ (toLowerCase tB = toLowerCase USDC_ADDRESS
      /\ toLowerCase tA = toLowerCase token).


(** The same chain with other token balances. *)
Definition with_balances (c : Chain)
    (balanceOf : address -> address -> option N) : Chain :=
  {| allPoolsLength := allPoolsLength c;
     allPools := allPools c;
     pool_tokenA := pool_tokenA c;
     pool_tokenB := pool_tokenB c;
     pool_reserveA := pool_reserveA c;
     pool_reserveB := pool_reserveB c;
     erc20_symbol := erc20_symbol c;
     erc20_decimals := erc20_decimals c;
     erc20_balanceOf := balanceOf;
     getBlockNumber := getBlockNumber c;
     getBlock := getBlock c;
     getLogs_Swap := getLogs_Swap c;
     getLogs_PoolCreated := getLogs_PoolCreated c |}.

(** A finite number that is not negative. *)
Definition finite_nonneg (a : num) : Prop :=
  match a with
  | Fin q => (0 <= q)%Q
  | _ => False
  end.

(** What the factory answers at index [i], when it is a usable address. *)
Definition listed_pool (c : Chain) (i : nat) : option address :=
  pa ← allPools c (N.of_nat i);
  if bool_decide (pa <> "") && bool_decide (pa <> ZERO_ADDRESS)
  then Some pa else None.

(** What a batch of upserts makes of a row that is already in the table:
    the last row of the batch with its key, or the row itself. *)
Definition overwritten {R : Type} (key : R -> string) (batch : list R) (r : R)
    : R :=
  foldl (fun r row => if bool_decide (key r = key row) then row else r)
        r batch.



(** The pool pairs the token with USDC and its two balances can be read. *)
Definition readable_usdc_pair (c : Chain) (token : address)
    (pool : PoolsView.PoolInfo) : Prop :=
  direct_pair token (PoolsView.tokenA pool) (PoolsView.tokenB pool)
  /\ is_Some (PoolsView.read_reserves c pool).

(** The timestamp is within the thirty days before [now]. *)
Definition in_window (now : Z) (event : SwapEventRow) : Prop :=
  now - PoolsView.THIRTY_DAYS <= se_timestamp event.

#[export] Instance in_window_dec (now : Z) (event : SwapEventRow)
    : Decision (in_window now event) :=
  decide (now - PoolsView.THIRTY_DAYS <= se_timestamp event).

(** The pool that the Pools view builds from the factory's answer at
    index [i], when there is one and its token reads succeed. *)
Definition pool_info_at (c : Chain) (i : nat) : option PoolsView.PoolInfo :=
  pool_at ← PoolsView.pool_at c i; pool_at.

(** The two balances of the pool and its supply of LP tokens can be read
    and are, formatted, above 0.000001. *)
Definition holds_liquidity (c : Chain) (totalSupply : address -> option N)
    (pool : PoolsView.PoolInfo) : Prop :=
  exists reserveA reserveB supply,
    erc20_balanceOf c (PoolsView.tokenA pool) (PoolsView.poolAddress pool)
      = Some reserveA
    /\ erc20_balanceOf c (PoolsView.tokenB pool) (PoolsView.poolAddress pool)
       = Some reserveB
    /\ totalSupply (PoolsView.poolAddress pool) = Some supply
    /\ gt (PoolsView.formatted reserveA
             (PoolsView.token_decimals (PoolsView.tokenA pool)))
          PoolsView.DUST = true
    /\ gt (PoolsView.formatted reserveB
             (PoolsView.token_decimals (PoolsView.tokenB pool)))
          PoolsView.DUST = true
    /\ gt (PoolsView.formatted supply 18) PoolsView.DUST = true.



(** ** Facts about JavaScript numbers *)

Section JsNumFacts.

Lemma Qltb_lt (a b : Q) : Qltb a b = true <-> (a < b)%Q.
Proof.
  unfold Qltb. rewrite negb_true_iff. split.
  - intros H. apply Qnot_le_lt. intros Hle.
    apply Qle_bool_iff in Hle. congruence.
  - intros H. destruct (Qle_bool b a) eqn:E; [|done].
    apply Qle_bool_iff in E. exfalso. exact (Qlt_not_le _ _ H E).
Qed.

Lemma Qis0_true (a : Q) : Qis0 a = true <-> (a == 0)%Q.
Proof. unfold Qis0. apply Qeq_bool_iff. Qed.

Lemma gt_Fin (x y : Q) : gt (Fin x) (Fin y) = true <-> (y < x)%Q.
Proof. simpl. apply Qltb_lt. Qed.

Lemma pow10_pos (d : N) : (d <= 308)%N -> (0 < inject_Z (10 ^ Z.of_N d))%Q.
Proof.
  intros _. replace 0%Q with (inject_Z 0) by reflexivity.
  rewrite <- Zlt_Qlt. apply Z.pow_pos_nonneg; lia.
Qed.

(** A formatted reserve is a finite, non-negative number. *)
Lemma formatted_Fin (r d : N) :
  exists q, Indexer.formatted r d = Fin q /\ (0 <= q)%Q.
Proof.
  unfold Indexer.formatted, pow10, of_N.
  destruct (d <=? 308)%N eqn:E.
  - apply N.leb_le in E. pose proof (pow10_pos d E) as Hp.
    simpl. destruct (Qis0 _) eqn:E0.
    + apply Qis0_true in E0. rewrite E0 in Hp. by apply Qlt_irrefl in Hp.
    + eexists; split; [reflexivity|].
      apply Qle_shift_div_l; [done|]. rewrite Qmult_0_l.
      replace 0%Q with (inject_Z 0) by reflexivity.
      rewrite <- Zle_Qle. lia.
  - exists 0%Q. split; [reflexivity | apply Qle_refl].
Qed.


End JsNumFacts.

(** ** The event extractor *)

Section Extractor.

Lemma swap_direction_nonzero (tokenA tokenB : address) (args : SwapArgs) :
  Indexer.swap_direction tokenA tokenB args =
    if bool_decide (Indexer.or0 (amountAIn args) <> 0%N)
    then Some (tokenA, tokenB, Indexer.or0 (amountAIn args),
               Indexer.or0 (amountBOut args))
    else if bool_decide (Indexer.or0 (amountBIn args) <> 0%N)
    then Some (tokenB, tokenA, Indexer.or0 (amountBIn args),
               Indexer.or0 (amountAOut args))
    else None.
Proof.
  unfold Indexer.swap_direction.
  repeat case_bool_decide; repeat case_match; try done;
    repeat match goal with
           | H : (_ <? _)%N = true |- _ => apply N.ltb_lt in H
           | H : (_ <? _)%N = false |- _ => apply N.ltb_ge in H
           end; lia.
Qed.

(** Whenever the loop returns, it has appended the prescribed records of
    the logs, in their order. *)
Lemma processSwapEvents_loop_returns (c : Chain)
    (pool tokenA tokenB : address) (logs : list SwapLog)
    (events result : list Indexer.SwapEvent) :
  Indexer.processSwapEvents_loop c pool tokenA tokenB logs events
    = Some result ->
  result = events ++ omap (prescribed_record c pool tokenA tokenB) logs.
Proof.
  revert events. induction logs as [|log rest IH]; intros events; simpl.
  - intros [= <-]. by rewrite app_nil_r.
  - unfold prescribed_record at 1.
    destruct (log_args log) as [args|]; simpl; [|apply IH].
    rewrite swap_direction_nonzero.
    destruct (getBlock c (log_blockNumber log)) as [ts|]; simpl.
    + repeat case_bool_decide; intros ->%IH; try done;
        by rewrite <- app_assoc.
    + repeat case_bool_decide; try done; apply IH.
Qed.

(** It returns when the block of every log can be read. *)
Lemma processSwapEvents_loop_acc (c : Chain) (pool tokenA tokenB : address)
    (logs : list SwapLog) (events : list Indexer.SwapEvent) :
  Forall (fun log => is_Some (getBlock c (log_blockNumber log))) logs ->
  is_Some (Indexer.processSwapEvents_loop c pool tokenA tokenB logs events).
Proof.
  intros Hblocks. revert events.
  induction Hblocks as [|log rest [ts Hts] _ IH]; intros events; simpl.
  - by eexists.
  - destruct (log_args log) as [args|]; [|apply IH].
    destruct (Indexer.swap_direction tokenA tokenB args)
      as [[[[tIn tOut] aIn] aOut]|]; [|apply IH].
    rewrite Hts. simpl. apply IH.
Qed.

(** The direction of a prescribed record, spelled out. *)
Lemma prescribed_record_direction (c : Chain) (pool tokenA tokenB : address)
    (log : SwapLog) (ev : Indexer.SwapEvent) :
  prescribed_record c pool tokenA tokenB log = Some ev ->
  exists args,
    log_args log = Some args
    /\ Indexer.txHash ev = log_transactionHash log
    /\ ((Indexer.or0 (amountAIn args) <> 0%N
         /\ Indexer.tokenIn ev = tokenA /\ Indexer.tokenOut ev = tokenB)
        \/ (Indexer.or0 (amountAIn args) = 0%N
            /\ Indexer.or0 (amountBIn args) <> 0%N
            /\ Indexer.tokenIn ev = tokenB /\ Indexer.tokenOut ev = tokenA)).
Proof.
  unfold prescribed_record.
  destruct (log_args log) as [args|]; simpl; [|done].
  destruct (getBlock c (log_blockNumber log)) as [ts|]; simpl; [|done].
  intros H. exists args. split; [done|].
  repeat case_bool_decide; try done; injection H as <-; simpl.
  - split; [done|]. by left.
  - split; [done|]. right. split; [|done].
    destruct (decide (Indexer.or0 (amountAIn args) = 0%N)); [done|].
    by exfalso.
Qed.

End Extractor.

(** C6. For every Swap log the extractor processes: a non-zero tokenA-in
    amount gives a record with tokenIn = tokenA and tokenOut = tokenB; a
    zero tokenA-in and a non-zero tokenB-in amount gives tokenIn = tokenB
    and tokenOut = tokenA; both amounts zero gives no record.  Every event
    the extractor returns is such a record of one of the logs, and when
    the block of every log can be read, the events returned are exactly
    the prescribed records of the logs, in the order of the logs. *)
Theorem swap_events_follow_direction (c : Chain) (pool tokenA tokenB : address)
    (fromBlock toBlock : Z) (logs : list SwapLog) :
  getLogs_Swap c pool fromBlock toBlock = Some logs ->
  pool_tokenA c pool = Some tokenA ->
  pool_tokenB c pool = Some tokenB ->
  let events := Indexer.processSwapEvents c pool fromBlock toBlock in
  (forall ev, ev ∈ events ->
     exists log args,
       log ∈ logs /\ log_args log = Some args
       /\ Indexer.txHash ev = log_transactionHash log
       /\ ((Indexer.or0 (amountAIn args) <> 0%N
            /\ Indexer.tokenIn ev = tokenA /\ Indexer.tokenOut ev = tokenB)
           \/ (Indexer.or0 (amountAIn args) = 0%N
               /\ Indexer.or0 (amountBIn args) <> 0%N
               /\ Indexer.tokenIn ev = tokenB
               /\ Indexer.tokenOut ev = tokenA)))
  /\ (Forall (fun log => is_Some (getBlock c (log_blockNumber log))) logs ->
      events = omap (prescribed_record c pool tokenA tokenB) logs).
Proof.
  intros Hlogs HA HB events. subst events.
  unfold Indexer.processSwapEvents. rewrite Hlogs, HA, HB. simpl.
  destruct (Indexer.processSwapEvents_loop c pool tokenA tokenB logs [])
    as [result|] eqn:Eloop.
  - apply processSwapEvents_loop_returns in Eloop. simpl in Eloop.
    subst result. split; [|done].
    intros ev (log & Hin & Hrec)%list_elem_of_omap.
    apply prescribed_record_direction in Hrec as (args & Hargs & Hdir).
    by exists log, args.
  - split.
    + intros ev Hin. by apply elem_of_nil in Hin.
    + intros Hblocks.
      apply (processSwapEvents_loop_acc c pool tokenA tokenB logs [])
        in Hblocks as [result Hres].
      congruence.
Qed.

Lemma swap_events_follow_direction_witness :
  let events :=
    Indexer.processSwapEvents Fixtures.drifted_chain Fixtures.P1 101 105 in
  events =
    omap (prescribed_record Fixtures.drifted_chain Fixtures.P1
            USDC_ADDRESS Fixtures.TKN)
         [Fixtures.swap_a_in; Fixtures.swap_none_in; Fixtures.swap_b_in]
  /\ (Indexer.tokenIn <$> events) = [USDC_ADDRESS; Fixtures.TKN]
  /\ (Indexer.tokenOut <$> events) = [Fixtures.TKN; USDC_ADDRESS].
Proof.
  intros events. split; [|by vm_compute].
  apply (swap_events_follow_direction Fixtures.drifted_chain Fixtures.P1
           USDC_ADDRESS Fixtures.TKN 101 105
           [Fixtures.swap_a_in; Fixtures.swap_none_in; Fixtures.swap_b_in]).
  - reflexivity.
  - reflexivity.
  - reflexivity.
  - repeat constructor; by eexists.
Defined.

(** ** Tables with a unique key *)

Section TableFacts.
Context {R : Type} (key : R -> string).

Lemma has_key_true (k : string) (tbl : list R) :
  has_key key k tbl = true <-> exists r, r ∈ tbl /\ key r = k.
Proof.
  unfold has_key. rewrite existsb_exists. split.
  - intros (r & Hin & Hk). apply bool_decide_eq_true in Hk.
    exists r. by rewrite list_elem_of_In.
  - intros (r & Hin & Hk). exists r. rewrite <- list_elem_of_In.
    split; [done|]. by apply bool_decide_eq_true.
Qed.

Lemma has_key_false (k : string) (tbl : list R) :
  has_key key k tbl = false <-> forall r, r ∈ tbl -> key r <> k.
Proof.
  rewrite <- not_true_iff_false, has_key_true. split.
  - intros Hno r Hin Hk. apply Hno. by exists r.
  - intros Hall (r & Hin & Hk). by apply (Hall r).
Qed.

(** After an upsert every row carrying the key is the row written. *)
Lemma upsert_key_row (row : R) (tbl : list R) (r : R) :
  r ∈ upsert key row tbl -> key r = key row -> r = row.
Proof.
  unfold upsert. destruct (has_key key (key row) tbl) eqn:E.
  - intros Hin Hk. apply list_elem_of_fmap in Hin as (r0 & -> & _).
    case_bool_decide; [done|]. by destruct H.
  - intros Hin Hk. apply elem_of_app in Hin as [Hin|Hin].
    + pose proof (proj1 (has_key_false _ _) E r Hin) as Hne. by destruct Hne.
    + by apply list_elem_of_singleton in Hin.
Qed.

Lemma upsert_has_key (row : R) (tbl : list R) :
  has_key key (key row) (upsert key row tbl) = true.
Proof.
  unfold upsert. destruct (has_key key (key row) tbl) eqn:E.
  - apply has_key_true in E as (r & Hin & Hk). apply has_key_true.
    exists row. split; [|done]. apply list_elem_of_fmap. exists r.
    by rewrite bool_decide_eq_true_2.
  - apply has_key_true. exists row. split; [|done].
    apply elem_of_app. right. by apply list_elem_of_singleton.
Qed.

Lemma upsert_elem (row : R) (tbl : list R) : row ∈ upsert key row tbl.
Proof.
  pose proof (upsert_has_key row tbl) as H.
  apply has_key_true in H as (r & Hin & Hk).
  by rewrite (upsert_key_row row tbl r Hin Hk) in Hin.
Qed.

(** Writing the same row twice is writing it once. *)
Lemma upsert_idempotent (row : R) (tbl : list R) :
  upsert key row (upsert key row tbl) = upsert key row tbl.
Proof.
  unfold upsert at 1. rewrite upsert_has_key.
  set (t := upsert key row tbl).
  assert (Hall : forall r, r ∈ t -> key r = key row -> r = row)
    by (intros r; apply upsert_key_row).
  clearbody t. induction t as [|r t IH]; [done|]. rewrite fmap_cons.
  rewrite IH by (intros r' Hr'; apply Hall; by right). f_equal.
  case_bool_decide; [|done]. symmetry. apply Hall; [by left | done].
Qed.

(** Rows of other keys are not touched by an upsert. *)
Lemma upsert_other_rows (row : R) (tbl : list R) (k : string) :
  key row <> k ->
  filter (fun r => key r = k) (upsert key row tbl)
    = filter (fun r => key r = k) tbl.
Proof.
  intros Hk. unfold upsert. destruct (has_key key (key row) tbl).
  - induction tbl as [|r tbl IH]; [done|]. rewrite fmap_cons.
    case_bool_decide as E.
    + rewrite filter_cons_False by done.
      rewrite filter_cons_False by congruence. done.
    + destruct (decide (key r = k)).
      * rewrite !filter_cons_True by done. by rewrite IH.
      * rewrite !filter_cons_False by done. done.
  - rewrite filter_app. rewrite (filter_cons_False _ row) by done.
    by rewrite filter_nil, app_nil_r.
Qed.

Lemma count_key_upsert_other (row : R) (tbl : list R) (k : string) :
  key row <> k -> count_key key k (upsert key row tbl) = count_key key k tbl.
Proof. intros Hk. unfold count_key. by rewrite upsert_other_rows. Qed.

Lemma count_key_absent (k : string) (tbl : list R) :
  has_key key k tbl = false -> count_key key k tbl = 0%nat.
Proof.
  intros H. pose proof (proj1 (has_key_false k tbl) H) as Hall. clear H.
  unfold count_key. induction tbl as [|r tbl IH]; [done|].
  rewrite filter_cons_False by (apply Hall; by left).
  apply IH. intros r' Hin. apply Hall. by right.
Qed.

Lemma upsert_keys_present (row : R) (tbl : list R) :
  has_key key (key row) tbl = true ->
  key <$> upsert key row tbl = key <$> tbl.
Proof.
  intros E. unfold upsert. rewrite E, <- list_fmap_compose.
  apply list_fmap_ext. intros _ r _. simpl. by case_bool_decide.
Qed.

Lemma count_key_keys (k : string) (tbl : list R) :
  count_key key k tbl = length (filter (fun x => x = k) (key <$> tbl)).
Proof.
  unfold count_key. induction tbl as [|r tbl IH]; [done|]. simpl.
  destruct (decide (key r = k)).
  - rewrite !filter_cons_True by done. simpl. by rewrite IH.
  - rewrite !filter_cons_False by done. done.
Qed.

Lemma count_key_unique (k : string) (tbl : list R) :
  NoDup (key <$> tbl) -> has_key key k tbl = true ->
  count_key key k tbl = 1%nat.
Proof.
  induction tbl as [|r tbl IH]; [done|]. simpl.
  intros Hnd Hk. apply NoDup_cons in Hnd as [Hnotin Hnd].
  unfold count_key. destruct (decide (key r = k)) as [Ek|Hne].
  - subst k. rewrite filter_cons_True by done. simpl. f_equal.
    apply count_key_absent, has_key_false. intros r' Hin Heq.
    apply Hnotin. rewrite <- Heq. apply list_elem_of_fmap. by exists r'.
  - rewrite filter_cons_False by done. apply IH; [done|].
    apply orb_true_iff in Hk as [Hk|Hk]; [|done].
    by apply bool_decide_eq_true in Hk.
Qed.

(** On a table that honours the UNIQUE constraint, the key written is
    carried by exactly one row afterwards. *)
Lemma count_key_upsert (row : R) (tbl : list R) :
  NoDup (key <$> tbl) -> count_key key (key row) (upsert key row tbl) = 1%nat.
Proof.
  intros Hnd. destruct (has_key key (key row) tbl) eqn:E.
  - rewrite count_key_keys, upsert_keys_present, <- count_key_keys by done.
    by apply count_key_unique.
  - unfold upsert. rewrite E. unfold count_key.
    rewrite filter_app, length_app. fold (count_key key (key row) tbl).
    rewrite count_key_absent by done.
    by rewrite filter_cons_True.
Qed.

(** The UNIQUE constraint survives an upsert. *)
Lemma upsert_NoDup (row : R) (tbl : list R) :
  NoDup (key <$> tbl) -> NoDup (key <$> upsert key row tbl).
Proof.
  intros Hnd. destruct (has_key key (key row) tbl) eqn:E.
  - by rewrite upsert_keys_present.
  - unfold upsert. rewrite E, fmap_app. apply NoDup_app.
    split; [done|]. split; [|apply NoDup_singleton].
    intros k Hin Hin'. apply list_elem_of_singleton in Hin' as ->.
    apply list_elem_of_fmap in Hin as (r & Hk & Hin).
    by apply (proj1 (has_key_false _ _) E r).
Qed.


End TableFacts.

(** The UNIQUE constraint on tx_hash holds along the writes of the
    indexer. *)
Lemma storeSwapEvents_NoDup (events : list Indexer.SwapEvent) (st : Store) :
  NoDup (se_tx_hash <$> swap_events st) ->
  NoDup (se_tx_hash <$> swap_events (Indexer.storeSwapEvents events st)).
Proof.
  unfold Indexer.storeSwapEvents. simpl. generalize (swap_events st) as tbl.
  induction events as [|event rest IH]; intros tbl Hnd; [done|]. simpl.
  by apply IH, upsert_NoDup.
Qed.

(** C5. Writing a swap event to the store is idempotent on its
    transaction hash: upserting the same event a second time leaves the
    store as it was after the first upsert, and the table, which honours
    the UNIQUE constraint on tx_hash, then holds exactly one row for that
    hash. *)
Theorem swap_event_upsert_idempotent (event : Indexer.SwapEvent) (st : Store) :
  NoDup (se_tx_hash <$> swap_events st) ->
  let once := Indexer.storeSwapEvents [event] st in
  let twice := Indexer.storeSwapEvents [event] once in
  twice = once
  /\ count_key se_tx_hash (Indexer.txHash event) (swap_events twice) = 1%nat.
Proof.
  intros Hnd once twice. assert (Heq : twice = once).
  { unfold twice, once, Indexer.storeSwapEvents. simpl.
    by rewrite upsert_idempotent. }
  split; [done|]. rewrite Heq. unfold once, Indexer.storeSwapEvents. simpl.
  by apply (count_key_upsert se_tx_hash (Indexer.swap_row event)).
Qed.

(** ** The pools table *)

Section PoolsTable.
Context (c : Chain) (clock : nat -> Z) (every : list address).

Lemma storePriceHistory_pools (sk : Store * nat)
    (pool tokenA tokenB : address) (ia ib : Indexer.TokenInfo) (ra rb : N) :
  pools (Indexer.storePriceHistory clock sk pool tokenA tokenB ia ib ra rb).1
    = pools sk.1.
Proof.
  destruct sk as [st k]. unfold Indexer.storePriceHistory.
  by match goal with |- context [if ?b then _ else _] => destruct b end.
Qed.





End PoolsTable.


(** ** The snapshot throttle *)

Section Throttle.









End Throttle.


(** ** Snapshots are taken of pools with liquidity only *)

Section Snapshots.






End Snapshots.


(** ** Volume and fees *)

Section Metrics.









(** Below 10000 events in the window, the request returns them all. *)
Lemma select_recent_complete (now : Z) (tbl : list SwapEventRow) :
  (length tbl <= Z.to_nat 10000)%nat ->
  PoolsView.select_recent now tbl
    ≡ₚ filter (fun r => now - PoolsView.THIRTY_DAYS <= se_timestamp r) tbl.
Proof.
  intros Hlen. unfold PoolsView.select_recent.
  rewrite take_ge; [apply merge_sort_Permutation|].
  rewrite merge_sort_Permutation.
  etrans; [apply length_filter | done].
Qed.

End Metrics.


(** ** The block cursor *)


(** ** Price routes *)

Section Routes.
Context (c : Chain).

Lemma getTokenPriceInUSD_S (n : nat) (token : address)
    (allPools : list PoolsView.PoolInfo) :
  PoolsView.getTokenPriceInUSD (S n) c token allPools =
    if bool_decide (toLowerCase token = toLowerCase USDC_ADDRESS)
    then Some one
    else match PoolsView.direct_loop c (toLowerCase token) allPools with
         | Some price => Some price
         | None =>
             PoolsView.indirect_loop
               (fun t => PoolsView.getTokenPriceInUSD n c t allPools)
               c (toLowerCase token) allPools
         end.
Proof. reflexivity. Qed.




Lemma indirect_loop_waits (rec : address -> option num) (t : string)
    (pool : PoolsView.PoolInfo) (rest : list PoolsView.PoolInfo) :
  PoolsView.pairs_without_usdc t pool = true ->
  rec (PoolsView.intermediate_of t pool) = None ->
  PoolsView.indirect_loop rec c t (pool :: rest) = None.
Proof.
  intros Hpair Hrec. cbn [PoolsView.indirect_loop]. by rewrite Hpair, Hrec.
Qed.

Lemma indirect_loop_mono (rec rec' : address -> option num) (t : string)
    (allPools : list PoolsView.PoolInfo) (p : num) :
  (forall a q, rec a = Some q -> rec' a = Some q) ->
  PoolsView.indirect_loop rec c t allPools = Some p ->
  PoolsView.indirect_loop rec' c t allPools = Some p.
Proof.
  intros Hle. induction allPools as [|pool rest IH]; [done|].
  cbn [PoolsView.indirect_loop].
  destruct (PoolsView.pairs_without_usdc t pool); [|done].
  destruct (rec _) as [q|] eqn:E; [|done]. rewrite (Hle _ _ E).
  cbn [mbind option_bind]. destruct (gt q zero); [|done].
  by destruct (PoolsView.read_reserves c pool).
Qed.

(** A price returned at some depth is returned at every greater depth. *)
Lemma getTokenPriceInUSD_mono (n : nat) (token : address)
    (allPools : list PoolsView.PoolInfo) (p : num) :
  PoolsView.getTokenPriceInUSD n c token allPools = Some p ->
  PoolsView.getTokenPriceInUSD (S n) c token allPools = Some p.
Proof.
  revert token p. induction n as [|n IH]; intros token p; [done|].
  rewrite (getTokenPriceInUSD_S (S n)), (getTokenPriceInUSD_S n).
  case_bool_decide; [done|].
  destruct (PoolsView.direct_loop c _ allPools); [done|].
  apply indirect_loop_mono. intros a q. apply IH.
Qed.


(** The indexer's price never looks at a token balance. *)
Lemma indexer_price_ignores_balances
    (balanceOf : address -> address -> option N) (token : address)
    (pools : list address) :
  Indexer.getTokenPriceInUSD (with_balances c balanceOf) token pools
    = Indexer.getTokenPriceInUSD c token pools.
Proof.
  unfold Indexer.getTokenPriceInUSD. case_bool_decide; [done|].
  induction pools as [|pool rest IH]; [done|]. simpl. by rewrite IH.
Qed.

End Routes.


(** C4.  On the cycle TKN/MID, MID/FAR, FAR/TKN with no USDC side, the
    Pools view's resolution of TKN has not returned at any depth of the
    recursion: no visited-token set stops it from re-entering TKN and
    MID in turn. *)
Theorem cyclic_route_never_returns (c : Chain) (fuel : nat) :
  PoolsView.getTokenPriceInUSD fuel c Fixtures.TKN Fixtures.cycle_pools = None.
Proof.
  assert (Hboth :
    PoolsView.getTokenPriceInUSD fuel c Fixtures.TKN Fixtures.cycle_pools = None
    /\ PoolsView.getTokenPriceInUSD fuel c Fixtures.MID Fixtures.cycle_pools
       = None); [|by destruct Hboth].
  induction fuel as [|n [IHt IHm]]; [done|].
  rewrite !getTokenPriceInUSD_S. split.
  - rewrite bool_decide_eq_false_2 by (by vm_compute).
    replace (PoolsView.direct_loop c _ _) with (@None num)
      by (by vm_compute).
    apply indirect_loop_waits; [by vm_compute | exact IHm].
  - rewrite bool_decide_eq_false_2 by (by vm_compute).
    replace (PoolsView.direct_loop c _ _) with (@None num)
      by (by vm_compute).
    apply indirect_loop_waits; [by vm_compute | exact IHt].
Qed.

(** ** The statements at concrete chains *)

Lemma swap_event_upsert_idempotent_witness :
  let event :=
    {| Indexer.poolAddress := Fixtures.P1;
       Indexer.tokenIn := USDC_ADDRESS;
       Indexer.tokenOut := Fixtures.TKN;
       Indexer.amountIn := 5;
       Indexer.amountOut := 7;
       Indexer.timestamp := 1700000000000;
       Indexer.txHash := "0xabc";
       Indexer.blockNumber := 103 |} in
  let once := Indexer.storeSwapEvents [event] empty_store in
  let twice := Indexer.storeSwapEvents [event] once in
  twice = once
  /\ count_key se_tx_hash "0xabc" (swap_events twice) = 1%nat.
Proof.
  intros event.
  apply (swap_event_upsert_idempotent event empty_store).
  simpl. apply NoDup_nil_2.
Defined.




(** Five cycles ten seconds apart leave two snapshots, 80 seconds apart. *)
Example five_cycles_two_snapshots :
  ph_timestamp <$> price_history (Indexer.w_store
    (Indexer.run Fixtures.clock10
       [Fixtures.drifted_chain; Fixtures.drifted_chain;
        Fixtures.drifted_chain; Fixtures.drifted_chain;
        Fixtures.drifted_chain]
       (Fixtures.fresh_world (Some 100))))
  = [1700000010000; 1700000090000].
Proof. vm_compute. reflexivity. Qed.






(** C1.  On a pool that holds 1000 USDC and 500 TKN while the contract's
    counter of USDC says 2000, the indexer prices TKN from the counters,
    at 4 USD, and stores a total liquidity of 3000 USD; from the balances
    the price is 2 USD (as the Pools view finds) and the liquidity 2000. *)
Theorem indexer_price_reads_contract_counters :
  let c := Fixtures.drifted_chain in
  erc20_balanceOf c USDC_ADDRESS Fixtures.P1 = Some (1000 * 10 ^ 6)%N
  /\ erc20_balanceOf c Fixtures.TKN Fixtures.P1 = Some (500 * 10 ^ 18)%N
  /\ pool_reserveA c Fixtures.P1 = Some (2000 * 10 ^ 6)%N
  /\ pool_reserveB c Fixtures.P1 = Some (500 * 10 ^ 18)%N
  /\ eqb (Indexer.getTokenPriceInUSD c Fixtures.TKN [Fixtures.P1]) (Fin 4)
     = true
  /\ (eqb (Fin 2)) <$> PoolsView.getTokenPriceInUSD 1 c Fixtures.TKN
                         [Fixtures.pool_info Fixtures.drifted_pool]
     = Some true
  /\ (fun row => eqb (pr_total_liquidity row) (Fin 3000)) <$>
       pools (Indexer.storePoolData c Fixtures.clock10 [Fixtures.P1]
                (empty_store, 0%nat)).1
     = [true].
Proof. vm_compute. repeat split. Qed.

(** * Further properties of the code *)

(** ** Letter case of addresses *)

Section LetterCase.

Lemma lower_ascii_idempotent (a : Ascii.ascii) :
  lower_ascii (lower_ascii a) = lower_ascii a.
Proof. by destruct a as [[] [] [] [] [] [] [] []]. Qed.

Lemma toLowerCase_idempotent (s : string) :
  toLowerCase (toLowerCase s) = toLowerCase s.
Proof.
  induction s as [|a s IH]; [done|]. simpl.
  by rewrite lower_ascii_idempotent, IH.
Qed.

Lemma usdc_pair_price_lower (c : Chain) (token pool : address) :
  Indexer.usdc_pair_price c (toLowerCase token) pool
    = Indexer.usdc_pair_price c token pool.
Proof.
  unfold Indexer.usdc_pair_price. by rewrite toLowerCase_idempotent.
Qed.

End LetterCase.

(** X5.  The price of a token does not depend on the letter case in which its
    address is written, in the indexer and in the Pools view alike. *)
Theorem price_ignores_letter_case (c : Chain) (token : address) :
  (forall pools,
     Indexer.getTokenPriceInUSD c (toLowerCase token) pools
       = Indexer.getTokenPriceInUSD c token pools)
  /\ (forall fuel allPools,
        PoolsView.getTokenPriceInUSD fuel c (toLowerCase token) allPools
          = PoolsView.getTokenPriceInUSD fuel c token allPools).
Proof.
  split.
  - intros pools. unfold Indexer.getTokenPriceInUSD.
    rewrite toLowerCase_idempotent. case_bool_decide; [done|].
    induction pools as [|pool rest IH]; [done|]. simpl.
    by rewrite usdc_pair_price_lower, IH.
  - intros [|n] allPools; [done|].
    by rewrite !getTokenPriceInUSD_S, toLowerCase_idempotent.
Qed.

(** ** Token metadata *)

Section TokenInfo.

Lemma pseudo_symbol_nonempty (token : address) :
  Indexer.pseudo_symbol token <> "".
Proof.
  unfold Indexer.pseudo_symbol.
  destruct token as [|a1 [|a2 [|a3 [|a4 [|a5 [|a6 rest]]]]]]; done.
Qed.

End TokenInfo.

(** X4.  [getTokenInfo] always answers with a non-empty symbol and non-zero
    decimals; a token of the known table gets the table's entry whatever
    the chain answers and in whatever letter case it is written; a token
    whose contract cannot be read gets the truncated address and 18. *)
Theorem token_info_never_blank (c : Chain) (token : address) :
  (Indexer.symbol (Indexer.getTokenInfo c token) <> ""
   /\ Indexer.decimals (Indexer.getTokenInfo c token) <> 0%N)
  /\ (forall info other c',
        Indexer.known_token (toLowerCase token) Indexer.KNOWN_TOKENS
          = Some info ->
        toLowerCase other = toLowerCase token ->
        Indexer.getTokenInfo c' other = info)
  /\ (Indexer.known_token (toLowerCase token) Indexer.KNOWN_TOKENS = None ->
      erc20_symbol c token = None -> erc20_decimals c token = None ->
      Indexer.getTokenInfo c token =
        {| Indexer.symbol := slice0 6 token +:+ "...";
           Indexer.decimals := 18 |}).
Proof.
  split; [|split].
  - unfold Indexer.getTokenInfo.
    destruct (Indexer.known_token _ _) as [info|] eqn:Ek.
    + unfold Indexer.KNOWN_TOKENS in Ek. simpl in Ek.
      repeat (case_bool_decide; [injection Ek as <-; by split|]). done.
    + simpl. split.
      * destruct (erc20_symbol c token) as [s|];
          [case_bool_decide; [apply pseudo_symbol_nonempty|done]
          |apply pseudo_symbol_nonempty].
      * destruct (erc20_decimals c token) as [d|]; simpl; [|done].
        destruct (d =? 0)%N eqn:E; [done|]. by apply N.eqb_neq in E.
  - intros info other c' Hk Hother. unfold Indexer.getTokenInfo.
    by rewrite Hother, Hk.
  - intros Hk Hs Hd. unfold Indexer.getTokenInfo. by rewrite Hk, Hs, Hd.
Qed.

(** ** More on tables *)

Section TableRows.
Context {R : Type} (key : R -> string).

Lemma upsert_rows (row r : R) (tbl : list R) :
  r ∈ upsert key row tbl -> r = row \/ r ∈ tbl.
Proof.
  unfold upsert. destruct (has_key key (key row) tbl).
  - intros (r0 & -> & Hr0)%list_elem_of_fmap.
    case_bool_decide; [by left | by right].
  - intros [Hin|Hin%list_elem_of_singleton]%elem_of_app;
      [by right | by left].
Qed.

Lemma delete_eq_rows (k : string) (r : R) (tbl : list R) :
  r ∈ delete_eq key k tbl -> r ∈ tbl.
Proof. unfold delete_eq. by intros [_ ?]%list_elem_of_filter. Qed.

End TableRows.

(** ** The indexer's prices are finite *)

Section FinitePrices.
Context (c : Chain).

Lemma formatted_nonneg (r d : N) : finite_nonneg (Indexer.formatted r d).
Proof. by destruct (formatted_Fin r d) as (q & -> & Hq). Qed.

Lemma guarded_ratio_nonneg (a b : num) :
  finite_nonneg a -> finite_nonneg b -> gt b zero = true ->
  finite_nonneg (div a b).
Proof.
  destruct a as [x| | |], b as [y| | |]; try done. intros Hx Hy Hgt.
  apply gt_Fin in Hgt. simpl. destruct (Qis0 y) eqn:E0.
  - apply Qis0_true in E0. rewrite E0 in Hgt. by apply Qlt_irrefl in Hgt.
  - simpl. apply Qle_shift_div_l; [done|]. by rewrite Qmult_0_l.
Qed.

Lemma usdc_pair_price_nonneg (token pool : address) (p : num) :
  Indexer.usdc_pair_price c token pool = Some (Some p) -> finite_nonneg p.
Proof.
  unfold Indexer.usdc_pair_price.
  destruct (pool_tokenA c pool) as [tA|]; [|done].
  destruct (pool_tokenB c pool) as [tB|]; [|done]. cbn [mbind option_bind].
  destruct (_ && _).
  - destruct (pool_reserveA c pool) as [rA|]; [|done].
    destruct (pool_reserveB c pool) as [rB|]; [|done]. cbn [mbind option_bind].
    destruct (gt _ zero) eqn:Egt; [|done]. intros Hp. do 2 apply (inj Some) in Hp. subst p.
    by apply guarded_ratio_nonneg; try apply formatted_nonneg.
  - destruct (_ && _); [|done].
    destruct (pool_reserveA c pool) as [rA|]; [|done].
    destruct (pool_reserveB c pool) as [rB|]; [|done]. cbn [mbind option_bind].
    destruct (gt _ zero) eqn:Egt; [|done]. intros Hp. do 2 apply (inj Some) in Hp. subst p.
    by apply guarded_ratio_nonneg; try apply formatted_nonneg.
Qed.

Lemma indexer_price_nonneg (token : address) (pools : list address) :
  finite_nonneg (Indexer.getTokenPriceInUSD c token pools).
Proof.
  unfold Indexer.getTokenPriceInUSD. case_bool_decide; [done|].
  induction pools as [|pool rest IH]; [done|]. simpl.
  destruct (Indexer.usdc_pair_price c token pool) as [[p|]|] eqn:E; try done.
  by apply usdc_pair_price_nonneg in E.
Qed.

Lemma mul_nonneg (a b : num) :
  finite_nonneg a -> finite_nonneg b -> finite_nonneg (mul a b).
Proof.
  destruct a as [x| | |], b as [y| | |]; try done. simpl.
  apply Qmult_le_0_compat.
Qed.

Lemma add_nonneg (a b : num) :
  finite_nonneg a -> finite_nonneg b -> finite_nonneg (add a b).
Proof.
  destruct a as [x| | |], b as [y| | |]; try done. simpl. intros. lra.
Qed.

Lemma storePoolData_pool_liquidity (clock : nat -> Z) (all : list address)
    (sk : Store * nat) (pool : address) (row : PoolRow) :
  row ∈ pools (Indexer.storePoolData_pool c clock all sk pool).1 ->
  row ∈ pools sk.1 \/ finite_nonneg (pr_total_liquidity row).
Proof.
  unfold Indexer.storePoolData_pool.
  destruct (Indexer.read_pool c pool) as [rd|]; [|by left].
  destruct sk as [st k]. destruct (Indexer.has_liquidity _ _ _ _).
  - rewrite storePriceHistory_pools. simpl.
    intros [-> | Hin]%upsert_rows; [|by left].
    right. simpl.
    apply add_nonneg; apply mul_nonneg;
      (apply formatted_nonneg || apply indexer_price_nonneg).
  - simpl. intros Hin%delete_eq_rows. by left.
Qed.

End FinitePrices.


(** X7.  Every row that [storePoolData] writes to the pools table carries a
    finite, non-negative total liquidity. *)
Theorem stored_liquidity_finite (c : Chain) (clock : nat -> Z)
    (all : list address) (sk : Store * nat) (row : PoolRow) :
  row ∈ pools (Indexer.storePoolData c clock all sk).1 ->
  row ∈ pools sk.1 \/ finite_nonneg (pr_total_liquidity row).
Proof.
  unfold Indexer.storePoolData. generalize all at 1 as every.
  intros every. revert sk.
  induction all as [|pool rest IH]; intros sk Hin; [by left|]. simpl in Hin.
  apply IH in Hin as [Hin|Hin]; [|by right].
  by apply storePoolData_pool_liquidity in Hin.
Qed.

(** ** The pool registry *)

Section Registry.
Context (c : Chain).

Lemma fetchAllPools_loop_cons (i : nat) (rest : list nat)
    (pools : list address) (known : gset string) :
  Indexer.fetchAllPools_loop c (i :: rest) pools known =
    match listed_pool c i with
    | Some pa =>
        Indexer.fetchAllPools_loop c rest (pools ++ [pa])
          ({[ toLowerCase pa ]} ∪ known)
    | None => Indexer.fetchAllPools_loop c rest pools known
    end.
Proof.
  unfold listed_pool. simpl.
  destruct (allPools c (N.of_nat i)) as [pa|]; simpl; [|done].
  by destruct (_ && _).
Qed.

Lemma fetchAllPools_loop_spec (idx : list nat) (pools : list address)
    (known : gset string) :
  Indexer.fetchAllPools_loop c idx pools known =
    (pools ++ omap (listed_pool c) idx,
     list_to_set (toLowerCase <$> omap (listed_pool c) idx) ∪ known).
Proof.
  revert pools known. induction idx as [|i rest IH]; intros pools known.
  - simpl. rewrite app_nil_r. f_equal. by rewrite (left_id_L ∅ (∪)).
  - rewrite fetchAllPools_loop_cons. cbn [omap list_omap].
    destruct (listed_pool c i) as [pa|]; [|apply IH].
    rewrite IH, <- app_assoc. simpl. f_equal.
    apply set_eq. intros x. rewrite !elem_of_union. tauto.
Qed.

End Registry.

(** X1.  [fetchAllPools] returns, in the order of the factory's indices, the
    addresses the factory answers that are neither empty nor the zero
    address, skipping the indices whose read rejects; the known-pool set
    gains exactly their lower-cased forms and loses nothing.  When the
    pool count cannot be read it returns no pool and leaves the set. *)
Theorem fetchAllPools_lists_answered_pools (c : Chain) (known : gset string) :
  match allPoolsLength c with
  | Some poolCount =>
      let listed := omap (listed_pool c) (seq 0 (N.to_nat poolCount)) in
      Indexer.fetchAllPools c known
        = (listed, list_to_set (toLowerCase <$> listed) ∪ known)
  | None => Indexer.fetchAllPools c known = ([], known)
  end.
Proof.
  unfold Indexer.fetchAllPools. destruct (allPoolsLength c) as [n|]; [|done].
  by rewrite fetchAllPools_loop_spec.
Qed.

(** ** Failures in the event extractor *)

Section ExtractorFailures.
Context (c : Chain) (pool tokenA tokenB : address).

Lemma processSwapEvents_loop_throws (logs : list SwapLog)
    (events : list Indexer.SwapEvent) (log : SwapLog) (args : SwapArgs) :
  log ∈ logs ->
  log_args log = Some args ->
  is_Some (Indexer.swap_direction tokenA tokenB args) ->
  getBlock c (log_blockNumber log) = None ->
  Indexer.processSwapEvents_loop c pool tokenA tokenB logs events = None.
Proof.
  intros Hin Hargs [d Hd] Hblock. revert events Hin.
  induction logs as [|log0 rest IH]; intros events Hin.
  - by apply elem_of_nil in Hin.
  - apply elem_of_cons in Hin as [<-|Hin]; simpl.
    + rewrite Hargs, Hd, Hblock. by destruct d as [[[? ?] ?] ?].
    + destruct (log_args log0) as [args0|]; [|by apply IH].
      destruct (Indexer.swap_direction tokenA tokenB args0)
        as [[[[? ?] ?] ?]|]; [|by apply IH].
      destruct (getBlock c (log_blockNumber log0)); simpl; [by apply IH|done].
Qed.

End ExtractorFailures.

(** X2.  The extractor is all or nothing for a pool: when the block of one
    swap log cannot be read, no event of the pool is returned for the
    range, the swaps whose blocks could be read included. *)
Theorem one_unreadable_block_drops_all_events (c : Chain)
    (pool tokenA tokenB : address) (fromBlock toBlock : Z)
    (logs : list SwapLog) (log : SwapLog) (args : SwapArgs) :
  getLogs_Swap c pool fromBlock toBlock = Some logs ->
  pool_tokenA c pool = Some tokenA ->
  pool_tokenB c pool = Some tokenB ->
  log ∈ logs ->
  log_args log = Some args ->
  (Indexer.or0 (amountAIn args) <> 0%N \/ Indexer.or0 (amountBIn args) <> 0%N) ->
  getBlock c (log_blockNumber log) = None ->
  Indexer.processSwapEvents c pool fromBlock toBlock = [].
Proof.
  intros Hlogs HA HB Hin Hargs Hdir Hblock. unfold Indexer.processSwapEvents.
  rewrite Hlogs, HA, HB. simpl.
  assert (Hsome : is_Some (Indexer.swap_direction tokenA tokenB args)).
  { rewrite swap_direction_nonzero.
    destruct Hdir; repeat case_bool_decide;
      solve [eexists; reflexivity | done]. }
  by rewrite (processSwapEvents_loop_throws c pool tokenA tokenB logs []
                log args Hin Hargs Hsome Hblock).
Qed.

(** ** Replaying a batch of upserts *)

Section Replay.
Context {R : Type} (key : R -> string).

Lemma overwritten_key (batch : list R) (r : R) :
  key (overwritten key batch r) = key r.
Proof.
  revert r. induction batch as [|row batch IH]; intros r; [done|].
  unfold overwritten in *. simpl. rewrite IH. by case_bool_decide.
Qed.

Lemma upsert_keeps_key (row : R) (tbl : list R) (k : string) :
  has_key key k tbl = true -> has_key key k (upsert key row tbl) = true.
Proof.
  intros (r & Hin & Hk)%has_key_true. apply has_key_true.
  unfold upsert. destruct (has_key key (key row) tbl).
  - eexists. split; [apply list_elem_of_fmap; by exists r|].
    simpl. case_bool_decide; congruence.
  - exists r. split; [|done]. apply elem_of_app. by left.
Qed.

Lemma foldl_upsert_keeps_key (batch tbl : list R) (k : string) :
  has_key key k tbl = true ->
  has_key key k (foldl (fun t row => upsert key row t) tbl batch) = true.
Proof.
  revert tbl. induction batch as [|row batch IH]; intros tbl Hk; [done|].
  simpl. by apply IH, upsert_keeps_key.
Qed.

Lemma foldl_upsert_has_keys (batch tbl : list R) (row : R) :
  row ∈ batch ->
  has_key key (key row)
    (foldl (fun t row => upsert key row t) tbl batch) = true.
Proof.
  revert tbl. induction batch as [|row0 batch IH]; intros tbl Hin.
  - by apply elem_of_nil in Hin.
  - simpl. apply elem_of_cons in Hin as [->|Hin]; [|by apply IH].
    apply foldl_upsert_keeps_key, upsert_has_key.
Qed.

(** On a table that holds every key of the batch, the batch overwrites
    in place. *)
Lemma foldl_upsert_present (batch tbl : list R) :
  (forall row, row ∈ batch -> has_key key (key row) tbl = true) ->
  foldl (fun t row => upsert key row t) tbl batch
    = overwritten key batch <$> tbl.
Proof.
  revert tbl. induction batch as [|row batch IH]; intros tbl Hall.
  - simpl. unfold overwritten. simpl. by rewrite list_fmap_id.
  - simpl. rewrite IH.
    + unfold upsert. rewrite Hall by left.
      rewrite <- list_fmap_compose. by apply list_fmap_ext.
    + intros row' Hin. apply upsert_keeps_key, Hall. by right.
Qed.

Lemma upsert_other_row (row r : R) (tbl : list R) :
  r ∈ upsert key row tbl -> key r <> key row -> r ∈ tbl.
Proof.
  intros [->|Hin]%upsert_rows Hne; done.
Qed.

(** After the batch, every row is what the batch makes of it. *)
Lemma foldl_upsert_settled (batch tbl : list R) (r : R) :
  r ∈ foldl (fun t row => upsert key row t) tbl batch ->
  overwritten key batch r = r.
Proof.
  revert tbl r. induction batch as [|row batch IH] using rev_ind;
    intros tbl r; [done|].
  rewrite foldl_app. simpl. intros Hin.
  unfold overwritten. rewrite foldl_app. simpl.
  fold (overwritten key batch r). rewrite overwritten_key.
  case_bool_decide as Hk.
  - symmetry. by apply (upsert_key_row key row _ r Hin).
  - apply (IH tbl). by apply upsert_other_row in Hin.
Qed.

Lemma foldl_upsert_replay (batch tbl : list R) :
  let once := foldl (fun t row => upsert key row t) tbl batch in
  foldl (fun t row => upsert key row t) once batch = once.
Proof.
  intros once. rewrite foldl_upsert_present.
  - rewrite <- (list_fmap_id once) at 2. apply list_fmap_ext.
    intros _ r Hin%list_elem_of_lookup_2. by apply (foldl_upsert_settled batch tbl).
  - intros row Hin. by apply foldl_upsert_has_keys.
Qed.

(** The last row of a key in the batch is the one the table ends with. *)
Lemma foldl_upsert_last_wins (before after tbl : list R) (row : R) :
  (forall row', row' ∈ after -> key row' <> key row) ->
  let out := foldl (fun t r => upsert key r t) tbl (before ++ row :: after) in
  row ∈ out /\ forall r, r ∈ out -> key r = key row -> r = row.
Proof.
  intros Hafter out. subst out. rewrite foldl_app. simpl.
  set (t1 := upsert key row (foldl _ tbl before)).
  assert (H1 : row ∈ t1 /\ forall r, r ∈ t1 -> key r = key row -> r = row).
  { split; [apply upsert_elem | apply upsert_key_row]. }
  clearbody t1. revert t1 H1.
  induction after as [|row' after IH]; intros t1 H1; [done|]. simpl.
  apply IH; [intros r Hr; apply Hafter; by right|].
  assert (Hne : key row' <> key row) by (apply Hafter; by left).
  destruct H1 as [Hin Hall]. split.
  - unfold upsert. destruct (has_key key (key row') t1).
    + apply list_elem_of_fmap. exists row.
      by rewrite bool_decide_eq_false_2 by done.
    + apply elem_of_app. by left.
  - intros r Hr Hk. apply Hall; [|done].
    apply upsert_other_row in Hr; [done|congruence].
Qed.

End Replay.

Lemma storeSwapEvents_fold (events : list Indexer.SwapEvent)
    (tbl : list SwapEventRow) :
  foldl (fun t event => upsert se_tx_hash (Indexer.swap_row event) t)
        tbl events
  = foldl (fun t row => upsert se_tx_hash row t) tbl
          (Indexer.swap_row <$> events).
Proof.
  revert tbl. induction events as [|e events IH]; intros tbl; [done|].
  simpl. apply IH.
Qed.

(** X8.  Storing a whole batch of swap events a second time, as a later cycle
    does when its block range overlaps, leaves the store as the first
    pass left it, whatever the batch and the store. *)
Theorem storeSwapEvents_replay (events : list Indexer.SwapEvent) (st : Store) :
  Indexer.storeSwapEvents events (Indexer.storeSwapEvents events st)
    = Indexer.storeSwapEvents events st.
Proof.
  unfold Indexer.storeSwapEvents. simpl. f_equal.
  rewrite !storeSwapEvents_fold. apply foldl_upsert_replay.
Qed.

(** X9.  Swaps that share a transaction hash share a row: within a batch the
    last event of a hash overwrites the earlier ones, and afterwards
    every row with that hash is the row of that last event. *)
Theorem last_swap_of_a_hash_wins (before after : list Indexer.SwapEvent)
    (event : Indexer.SwapEvent) (st : Store) :
  (forall e, e ∈ after -> Indexer.txHash e <> Indexer.txHash event) ->
  let out :=
    swap_events
      (Indexer.storeSwapEvents (before ++ event :: after) st) in
  Indexer.swap_row event ∈ out
  /\ forall r, r ∈ out -> se_tx_hash r = Indexer.txHash event ->
               r = Indexer.swap_row event.
Proof.
  intros Hafter. unfold Indexer.storeSwapEvents. simpl.
  rewrite storeSwapEvents_fold, fmap_app, fmap_cons.
  apply (foldl_upsert_last_wins se_tx_hash).
  intros row' (e & -> & He)%list_elem_of_fmap. simpl. by apply Hafter.
Qed.

(** ** What a run keeps *)

Section Kept.

Lemma insert_price_prefix (row : PriceRow) (tbl : list PriceRow) :
  tbl `prefix_of` Indexer.insert_price row tbl.
Proof.
  unfold Indexer.insert_price. destruct (existsb _ tbl); [done|].
  by apply prefix_app_r.
Qed.

Lemma storePriceHistory_prefix (clock : nat -> Z) (sk : Store * nat)
    (pool tokenA tokenB : address) (ia ib : Indexer.TokenInfo) (ra rb : N) :
  price_history sk.1 `prefix_of`
    price_history
      (Indexer.storePriceHistory clock sk pool tokenA tokenB ia ib ra rb).1.
Proof.
  destruct sk as [st k]. unfold Indexer.storePriceHistory.
  match goal with |- context [if ?b then _ else _] => destruct b end;
    simpl; [apply insert_price_prefix | done].
Qed.

Lemma storePriceHistory_swap_events (clock : nat -> Z) (sk : Store * nat)
    (pool tokenA tokenB : address) (ia ib : Indexer.TokenInfo) (ra rb : N) :
  swap_events
    (Indexer.storePriceHistory clock sk pool tokenA tokenB ia ib ra rb).1
    = swap_events sk.1.
Proof.
  destruct sk as [st k]. unfold Indexer.storePriceHistory.
  by match goal with |- context [if ?b then _ else _] => destruct b end.
Qed.

Lemma storePoolData_pool_kept (c : Chain) (clock : nat -> Z)
    (every : list address) (sk : Store * nat) (pool : address) :
  let out := (Indexer.storePoolData_pool c clock every sk pool).1 in
  price_history sk.1 `prefix_of` price_history out
  /\ swap_events out = swap_events sk.1
  /\ (NoDup (pr_pool_address <$> pools sk.1) ->
      NoDup (pr_pool_address <$> pools out)).
Proof.
  unfold Indexer.storePoolData_pool.
  destruct (Indexer.read_pool c pool) as [rd|]; [|done].
  destruct sk as [st k]. destruct (Indexer.has_liquidity _ _ _ _); cbv zeta.
  - rewrite storePriceHistory_swap_events, storePriceHistory_pools.
    split; [|split]; [|done|].
    + etrans; [|apply storePriceHistory_prefix]. done.
    + simpl. apply upsert_NoDup.
  - simpl. split; [done|]. split; [done|].
    intros Hnd. unfold delete_eq.
    eapply sublist_NoDup; [exact Hnd|].
    apply fmap_sublist, sublist_filter.
Qed.

Lemma storePoolData_loop_kept (c : Chain) (clock : nat -> Z)
    (every all : list address) (sk : Store * nat) :
  let out := (foldl (Indexer.storePoolData_pool c clock every) sk all).1 in
  price_history sk.1 `prefix_of` price_history out
  /\ swap_events out = swap_events sk.1
  /\ (NoDup (pr_pool_address <$> pools sk.1) ->
      NoDup (pr_pool_address <$> pools out)).
Proof.
  revert sk. induction all as [|pool rest IH]; intros sk; [done|]. simpl.
  destruct (storePoolData_pool_kept c clock every sk pool) as (H1 & H2 & H3).
  destruct (IH (Indexer.storePoolData_pool c clock every sk pool))
    as (I1 & I2 & I3).
  split; [by etrans|]. split; [congruence|]. auto.
Qed.

Lemma storeSwapEvents_keeps_hash (events : list Indexer.SwapEvent)
    (st : Store) (h : string) :
  has_key se_tx_hash h (swap_events st) = true ->
  has_key se_tx_hash h (swap_events (Indexer.storeSwapEvents events st))
    = true.
Proof.
  unfold Indexer.storeSwapEvents. simpl. rewrite storeSwapEvents_fold.
  apply foldl_upsert_keeps_key.
Qed.

(** What one cycle keeps of the store. *)
Lemma index_kept (c : Chain) (clock : nat -> Z) (w : Indexer.World) :
  let out := Indexer.w_store (Indexer.index c clock w).1 in
  price_history (Indexer.w_store w) `prefix_of` price_history out
  /\ (forall h, has_key se_tx_hash h (swap_events (Indexer.w_store w)) = true ->
                has_key se_tx_hash h (swap_events out) = true)
  /\ (NoDup (se_tx_hash <$> swap_events (Indexer.w_store w)) ->
      NoDup (se_tx_hash <$> swap_events out))
  /\ (NoDup (pr_pool_address <$> pools (Indexer.w_store w)) ->
      NoDup (pr_pool_address <$> pools out)).
Proof.
  unfold Indexer.index.
  destruct (Indexer.fetchAllPools c _) as [pools0 known0].
  destruct (getBlockNumber c) as [head|]; [|done].
  match goal with |- context [match ?x with Some _ => _ | None => _ end] =>
    destruct x as [[pools1 known1]|] end; [|done].
  match goal with
  | |- context [Indexer.storePoolData c clock pools1 (?st1, ?k)] =>
      set (s1 := st1);
      pose proof (storePoolData_loop_kept c clock pools1 pools1 (s1, k))
        as (K1 & K2 & K3);
      assert (Hs1 :
        price_history s1 = price_history (Indexer.w_store w)
        /\ pools s1 = pools (Indexer.w_store w)
        /\ (forall h,
              has_key se_tx_hash h (swap_events (Indexer.w_store w)) = true ->
              has_key se_tx_hash h (swap_events s1) = true)
        /\ (NoDup (se_tx_hash <$> swap_events (Indexer.w_store w)) ->
            NoDup (se_tx_hash <$> swap_events s1)))
  end.
  { subst s1. case_match; [done|]. split; [done|]. split; [done|].
    split; [intros h; apply storeSwapEvents_keeps_hash
           |apply storeSwapEvents_NoDup]. }
  destruct Hs1 as (P1 & P2 & P3 & P4). simpl in K1, K2, K3.
  fold (Indexer.storePoolData c clock pools1 (s1, Indexer.w_ticks w))
    in K1, K2, K3.
  destruct pools1 as [|p1 pools1'].
  - simpl. rewrite P1, P2. auto.
  - destruct (Indexer.storePoolData _ _ _ _) as [st2 k2]. simpl in *.
    rewrite <- P1, <- P2, K2. auto.
Qed.

End Kept.

(** X11.  Along every run of the polling loop the price history is append-only:
    the rows it held are still there, unchanged and in the same places,
    and new rows come after them. *)
Theorem price_history_append_only (clock : nat -> Z) (cycles : list Chain)
    (w : Indexer.World) :
  price_history (Indexer.w_store w) `prefix_of`
    price_history (Indexer.w_store (Indexer.run clock cycles w)).
Proof.
  unfold Indexer.run. revert w.
  induction cycles as [|c rest IH]; intros w; [done|]. simpl.
  etrans; [|apply IH]. apply index_kept.
Qed.

(** X12.  A run never forgets a swap: a transaction hash that has a row in
    swap_events still has one after any number of cycles. *)
Theorem swap_hashes_never_lost (clock : nat -> Z) (cycles : list Chain)
    (w : Indexer.World) (h : string) :
  has_key se_tx_hash h (swap_events (Indexer.w_store w)) = true ->
  has_key se_tx_hash h
    (swap_events (Indexer.w_store (Indexer.run clock cycles w))) = true.
Proof.
  unfold Indexer.run. revert w.
  induction cycles as [|c rest IH]; intros w Hh; [done|]. simpl.
  by apply IH, index_kept.
Qed.

(** X13.  The two UNIQUE constraints that the upserts rely on, on tx_hash in
    swap_events and on pool_address in pools, hold after every run that
    starts from a store in which they hold. *)
Theorem unique_keys_kept (clock : nat -> Z) (cycles : list Chain)
    (w : Indexer.World) :
  NoDup (se_tx_hash <$> swap_events (Indexer.w_store w)) ->
  NoDup (pr_pool_address <$> pools (Indexer.w_store w)) ->
  let out := Indexer.w_store (Indexer.run clock cycles w) in
  NoDup (se_tx_hash <$> swap_events out)
  /\ NoDup (pr_pool_address <$> pools out).
Proof.
  unfold Indexer.run. revert w.
  induction cycles as [|c rest IH]; intros w Hs Hp; [done|]. simpl.
  destruct (index_kept c clock w) as (_ & _ & Ks & Kp).
  apply IH; auto.
Qed.

(** ** When a snapshot is taken *)

Section SnapshotDue.



End SnapshotDue.


(** ** The cursor and the known pools along a run *)

Section Progress.

Lemma add_created_pool_grows (acc : list address * gset string)
    (logs : list PoolCreatedLog) :
  acc.2 ⊆ (foldl Indexer.add_created_pool acc logs).2.
Proof.
  revert acc. induction logs as [|log logs IH]; intros acc; [done|]. simpl.
  etrans; [|apply IH]. unfold Indexer.add_created_pool.
  destruct (created_pool log) as [newPool|]; [|done].
  destruct (_ && _); [|done]. simpl. apply union_subseteq_r.
Qed.

Lemma fetchAllPools_grows (c : Chain) (known : gset string) :
  known ⊆ (Indexer.fetchAllPools c known).2.
Proof.
  unfold Indexer.fetchAllPools. destruct (allPoolsLength c); [|done].
  rewrite fetchAllPools_loop_spec. simpl. apply union_subseteq_r.
Qed.

Lemma index_progress (c : Chain) (clock : nat -> Z) (w : Indexer.World)
    (cur : Z) :
  Indexer.lastProcessedBlock (Indexer.w_state w) = Some cur ->
  0 < cur ->
  let w' := (Indexer.index c clock w).1 in
  (exists cur', Indexer.lastProcessedBlock (Indexer.w_state w') = Some cur'
                /\ cur <= cur')
  /\ Indexer.knownPools (Indexer.w_state w)
       ⊆ Indexer.knownPools (Indexer.w_state w').
Proof.
  intros Hcur Hpos. cbv zeta. unfold Indexer.index.
  pose proof (fetchAllPools_grows c (Indexer.knownPools (Indexer.w_state w)))
    as Hgrow.
  destruct (Indexer.fetchAllPools c _) as [pools0 known0]. simpl in Hgrow.
  rewrite Hcur. simpl Indexer.cursor_unset.
  destruct (getBlockNumber c) as [head|]; [|simpl; split; [by exists cur|done]].
  rewrite (proj2 (Z.eqb_neq cur 0)) by lia. simpl default.
  destruct (cur + 1 <=? head) eqn:Erange.
  - apply Z.leb_le in Erange.
    destruct (getLogs_PoolCreated c (cur + 1) head) as [logs|]; simpl;
      [|split; [by exists cur|done]].
    pose proof (add_created_pool_grows (pools0, known0) logs) as Hadd.
    destruct (foldl Indexer.add_created_pool _ logs) as [pools1 known1].
    simpl in Hadd.
    assert (Hk : Indexer.knownPools (Indexer.w_state w) ⊆ known1)
      by (by etrans).
    destruct pools1; [|destruct (Indexer.storePoolData _ _ _ _)]; simpl;
      (split; [exists head; split; [done|lia] | done]).
  - simpl.
    destruct pools0; [|destruct (Indexer.storePoolData _ _ _ _)]; simpl;
      (split; [by exists cur | done]).
Qed.

End Progress.

(** X14.  Along every run that starts with a positive cursor, the cursor never
    moves backwards and the set of known pools never loses a pool. *)
Theorem cursor_and_known_pools_only_grow (clock : nat -> Z)
    (cycles : list Chain) (w : Indexer.World) (cur : Z) :
  Indexer.lastProcessedBlock (Indexer.w_state w) = Some cur ->
  0 < cur ->
  let w' := Indexer.run clock cycles w in
  (exists cur', Indexer.lastProcessedBlock (Indexer.w_state w') = Some cur'
                /\ cur <= cur')
  /\ Indexer.knownPools (Indexer.w_state w)
       ⊆ Indexer.knownPools (Indexer.w_state w').
Proof.
  unfold Indexer.run. revert w cur.
  induction cycles as [|c rest IH]; intros w cur Hcur Hpos.
  - simpl. split; [by exists cur|done].
  - simpl.
    destruct (index_progress c clock w cur Hcur Hpos)
      as [(cur1 & Hcur1 & Hle1) Hk1].
    destruct (IH _ cur1 Hcur1 ltac:(lia)) as [(cur2 & Hcur2 & Hle2) Hk2].
    split; [exists cur2; split; [done|lia] | by etrans].
Qed.

(** ** Cycles without new blocks, and the first cycle *)

Section Cycles.

Lemma storePoolData_swap_events (c : Chain) (clock : nat -> Z)
    (all : list address) (sk : Store * nat) :
  swap_events (Indexer.storePoolData c clock all sk).1 = swap_events sk.1.
Proof. apply (storePoolData_loop_kept c clock all all sk). Qed.

End Cycles.

(** X15.  A cycle that finds no new block (the head is not past the cursor)
    asks for no log, stores no swap and leaves the cursor, and still
    reads and stores every pool of the factory: its store is the one
    [storePoolData] makes for the factory's pools. *)
Theorem cycle_without_new_blocks_still_stores_pools (c : Chain)
    (clock : nat -> Z) (w : Indexer.World) (cur head : Z) :
  Indexer.lastProcessedBlock (Indexer.w_state w) = Some cur ->
  cur <> 0 ->
  getBlockNumber c = Some head ->
  head <= cur ->
  let r := Indexer.index c clock w in
  let listed :=
    (Indexer.fetchAllPools c (Indexer.knownPools (Indexer.w_state w))).1 in
  r.2 = Indexer.Completed
  /\ Indexer.lastProcessedBlock (Indexer.w_state r.1) = Some cur
  /\ swap_events (Indexer.w_store r.1) = swap_events (Indexer.w_store w)
  /\ (Indexer.w_store r.1, Indexer.w_ticks r.1)
     = Indexer.storePoolData c clock listed
         (Indexer.w_store w, Indexer.w_ticks w).
Proof.
  intros Hcur Hnz Hhead Hle. cbv zeta. unfold Indexer.index.
  destruct (Indexer.fetchAllPools c _) as [pools0 known0].
  rewrite Hcur, Hhead. simpl Indexer.cursor_unset.
  rewrite (proj2 (Z.eqb_neq cur 0) Hnz). simpl default.
  rewrite (proj2 (Z.leb_gt (cur + 1) head)) by lia. simpl.
  pose proof (storePoolData_swap_events c clock pools0
                (Indexer.w_store w, Indexer.w_ticks w)) as Hsw.
  destruct pools0 as [|p0 pools0]; [done|].
  destruct (Indexer.storePoolData _ _ _ _) as [st2 k2]. by simpl in *.
Qed.

(** X16.  The first cycle, and any cycle that finds the cursor unset or at 0,
    looks back 10000 blocks from the head: the cursor ends at the head
    when the factory's PoolCreated logs of the blocks head-9999 to head
    can be read, and at head-10000 when that query rejects. *)
Theorem first_cycle_looks_back_10000_blocks (c : Chain) (clock : nat -> Z)
    (w : Indexer.World) (head : Z) :
  Indexer.cursor_unset (Indexer.lastProcessedBlock (Indexer.w_state w))
    = true ->
  getBlockNumber c = Some head ->
  let r := Indexer.index c clock w in
  let cursor' := Indexer.lastProcessedBlock (Indexer.w_state r.1) in
  match getLogs_PoolCreated c (head - 9999) head with
  | Some _ => r.2 = Indexer.Completed /\ cursor' = Some head
  | None => r.2 = Indexer.Threw /\ cursor' = Some (head - 10000)
  end.
Proof.
  intros Hunset Hhead. cbv zeta. unfold Indexer.index.
  destruct (Indexer.fetchAllPools c _) as [pools0 known0].
  rewrite Hunset, Hhead.
  replace (head - 10000 + 1) with (head - 9999) by lia.
  rewrite (proj2 (Z.leb_le (head - 9999) head)) by lia.
  destruct (getLogs_PoolCreated c (head - 9999) head) as [logs|]; simpl;
    [|done].
  destruct (foldl Indexer.add_created_pool _ logs) as [pools1 known1].
  by destruct pools1; [|destruct (Indexer.storePoolData _ _ _ _)].
Qed.

(** ** Routes of depth two *)

Section TwoLevels.
Context (c : Chain).

Lemma direct_loop_finds (token : address)
    (allPools : list PoolsView.PoolInfo) :
  (exists pool, pool ∈ allPools /\ readable_usdc_pair c token pool) ->
  is_Some (PoolsView.direct_loop c (toLowerCase token) allPools).
Proof.
  induction allPools as [|pool rest IH]; intros (p & Hin & Hpair & Hrd).
  - by apply elem_of_nil in Hin.
  - assert (Hrest : p ∈ rest ->
      is_Some (PoolsView.direct_loop c (toLowerCase token) rest))
      by (intros Hp; apply IH; by exists p).
    apply elem_of_cons in Hin as [<-|Hin].
    + clear IH Hrest. destruct Hrd as [[rA rB] Hrd].
      unfold direct_pair in Hpair. cbn [PoolsView.direct_loop].
      rewrite Hrd.
      repeat case_bool_decide; simpl; try (by eexists);
        exfalso; destruct Hpair as [[? ?]|[? ?]]; congruence.
    + specialize (Hrest Hin). cbn [PoolsView.direct_loop].
      destruct (_ || _); [|done]. case_bool_decide; [|done].
      destruct (PoolsView.read_reserves c pool) as [[rA rB]|]; [|done].
      by case_bool_decide.
Qed.

Lemma indirect_loop_returns (rec : address -> option num) (t : string)
    (allPools : list PoolsView.PoolInfo) :
  (forall pool, pool ∈ allPools ->
     PoolsView.pairs_without_usdc t pool = true ->
     is_Some (rec (PoolsView.intermediate_of t pool))) ->
  is_Some (PoolsView.indirect_loop rec c t allPools).
Proof.
  induction allPools as [|pool rest IH]; intros Hrec; [by eexists|].
  assert (Hrest : is_Some (PoolsView.indirect_loop rec c t rest))
    by (apply IH; intros p Hp; apply Hrec; by right).
  cbn [PoolsView.indirect_loop].
  destruct (PoolsView.pairs_without_usdc t pool) eqn:Hpair; [|done].
  destruct (Hrec pool (list_elem_of_here _ _) Hpair) as [p ->].
  cbn [mbind option_bind]. destruct (gt p zero); [|done].
  by destruct (PoolsView.read_reserves c pool).
Qed.

Lemma intermediate_not_usdc (t : string) (pool : PoolsView.PoolInfo) :
  PoolsView.pairs_without_usdc t pool = true ->
  PoolsView.intermediate_of t pool <> toLowerCase USDC_ADDRESS.
Proof.
  unfold PoolsView.pairs_without_usdc, PoolsView.intermediate_of.
  intros [[_ HA%bool_decide_eq_true]%andb_true_iff
          HB%bool_decide_eq_true]%andb_true_iff.
  by case_bool_decide.
Qed.

Lemma intermediate_lower (t : string) (pool : PoolsView.PoolInfo) :
  toLowerCase (PoolsView.intermediate_of t pool)
    = PoolsView.intermediate_of t pool.
Proof.
  unfold PoolsView.intermediate_of.
  case_bool_decide; apply toLowerCase_idempotent.
Qed.

End TwoLevels.

(** X17.  The Pools view's resolution of a token returns, at the second level
    of the recursion at the latest, whenever every non-USDC token that a
    pool pairs with the token has itself a USDC pool whose balances can
    be read. *)
Theorem two_level_route_returns (c : Chain) (token : address)
    (allPools : list PoolsView.PoolInfo) :
  (forall pool, pool ∈ allPools ->
     PoolsView.pairs_without_usdc (toLowerCase token) pool = true ->
     exists direct, direct ∈ allPools
       /\ readable_usdc_pair c
            (PoolsView.intermediate_of (toLowerCase token) pool) direct) ->
  is_Some (PoolsView.getTokenPriceInUSD 2 c token allPools).
Proof.
  intros Hmid. rewrite getTokenPriceInUSD_S. case_bool_decide; [by eexists|].
  destruct (PoolsView.direct_loop c _ allPools); [by eexists|].
  apply indirect_loop_returns. intros pool Hin Hpair.
  rewrite getTokenPriceInUSD_S, intermediate_lower.
  rewrite bool_decide_eq_false_2 by (by apply intermediate_not_usdc).
  destruct (direct_loop_finds c _ allPools (Hmid pool Hin Hpair)) as [p Hp].
  rewrite intermediate_lower in Hp. rewrite Hp. by eexists.
Qed.

(** ** A pool emptied of one token *)

Section EmptiedPool.

Lemma token_decimals_small (token : address) :
  (PoolsView.token_decimals token <= 18)%N.
Proof.
  unfold PoolsView.token_decimals, PoolsView.TOKENS. simpl.
  repeat case_bool_decide; simpl; lia.
Qed.

Lemma formatted_zero (d : N) :
  exists q, PoolsView.formatted 0 d = Fin q /\ Qis0 q = true.
Proof.
  unfold PoolsView.formatted, pow10, of_N. destruct (d <=? 308)%N eqn:E.
  - apply N.leb_le in E. pose proof (pow10_pos d E) as Hp. simpl.
    destruct (Qis0 (inject_Z (10 ^ Z.of_N d))) eqn:E0.
    + apply Qis0_true in E0. rewrite E0 in Hp. by apply Qlt_irrefl in Hp.
    + eexists. split; [done|]. apply Qis0_true.
      unfold Qdiv. apply Qmult_0_l.
  - by exists 0%Q.
Qed.

Lemma formatted_positive (r d : N) :
  r <> 0%N -> (d <= 308)%N ->
  exists q, PoolsView.formatted r d = Fin q /\ (0 < q)%Q.
Proof.
  intros Hr Hd. unfold PoolsView.formatted, pow10, of_N.
  rewrite (proj2 (N.leb_le d 308) Hd). pose proof (pow10_pos d Hd) as Hp.
  simpl. destruct (Qis0 (inject_Z (10 ^ Z.of_N d))) eqn:E0.
  - apply Qis0_true in E0. rewrite E0 in Hp. by apply Qlt_irrefl in Hp.
  - eexists. split; [done|]. apply Qlt_shift_div_l; [done|].
    rewrite Qmult_0_l. replace 0%Q with (inject_Z 0) by reflexivity.
    rewrite <- Zlt_Qlt. lia.
Qed.

Lemma div_by_zero_infinite (x y : Q) :
  (0 < x)%Q -> Qis0 y = true -> div (Fin x) (Fin y) = PInf.
Proof.
  intros Hx Hy. simpl. rewrite Hy.
  destruct (Qis0 x) eqn:E0.
  - apply Qis0_true in E0. rewrite E0 in Hx. by apply Qlt_irrefl in Hx.
  - destruct (Qltb x 0) eqn:El; [|done].
    apply Qltb_lt in El. exfalso. apply (Qlt_irrefl x).
    by apply (Qlt_trans x 0 x).
Qed.

End EmptiedPool.

(** X18.  In the Pools view, a USDC pool emptied of its token prices the token
    at [Infinity]: when the first pool of the list pairs the token with
    USDC and holds some USDC and none of the token, the quotient of the
    reserves is a division by zero that [price || 0] lets through. *)
Theorem emptied_pool_prices_token_at_infinity (c : Chain) (n : nat)
    (token : address) (pool : PoolsView.PoolInfo)
    (rest : list PoolsView.PoolInfo) (usdc : N) :
  toLowerCase token <> toLowerCase USDC_ADDRESS ->
  toLowerCase (PoolsView.tokenA pool) = toLowerCase USDC_ADDRESS ->
  toLowerCase (PoolsView.tokenB pool) = toLowerCase token ->
  erc20_balanceOf c (PoolsView.tokenA pool) (PoolsView.poolAddress pool)
    = Some usdc ->
  usdc <> 0%N ->
  erc20_balanceOf c (PoolsView.tokenB pool) (PoolsView.poolAddress pool)
    = Some 0%N ->
  PoolsView.getTokenPriceInUSD (S n) c token (pool :: rest) = Some PInf.
Proof.
  intros Htoken HA HB Hu Hpos Hzero.
  rewrite getTokenPriceInUSD_S, bool_decide_eq_false_2 by done.
  cbn [PoolsView.direct_loop]. unfold PoolsView.read_reserves.
  rewrite Hu, Hzero. cbn [mbind option_bind].
  rewrite HA, HB, !bool_decide_eq_true_2 by done. simpl orb. cbv iota.
  destruct (formatted_positive usdc
              (PoolsView.token_decimals (PoolsView.tokenA pool)) Hpos)
    as (qa & -> & Hqa).
  { pose proof (token_decimals_small (PoolsView.tokenA pool)). lia. }
  destruct (formatted_zero (PoolsView.token_decimals (PoolsView.tokenB pool)))
    as (qb & -> & Hqb).
  rewrite bool_decide_eq_true_2 by done.
  by rewrite div_by_zero_infinite.
Qed.

(** ** The pools listed by the Pools view *)

Section Listing.
Context (c : Chain) (totalSupply : address -> option N).

Lemma poolList_loop_spec (idx : list nat) (acc : list PoolsView.PoolInfo) :
  PoolsView.poolList_loop c idx acc = acc ++ omap (pool_info_at c) idx.
Proof.
  revert acc. induction idx as [|i rest IH]; intros acc.
  - simpl. by rewrite app_nil_r.
  - cbn [PoolsView.poolList_loop omap list_omap]. unfold pool_info_at at 1.
    destruct (PoolsView.pool_at c i) as [[pool|]|]; simpl; try apply IH.
    by rewrite IH, <- app_assoc.
Qed.

Lemma poolsWithLiquidity_loop_spec (l acc : list PoolsView.PoolInfo) :
  PoolsView.poolsWithLiquidity_loop c totalSupply l acc =
    acc ++ filter (fun pool => PoolsView.with_liquidity c totalSupply pool)
                  l.
Proof.
  revert acc. induction l as [|pool rest IH]; intros acc.
  - simpl. by rewrite app_nil_r.
  - cbn [PoolsView.poolsWithLiquidity_loop].
    destruct (PoolsView.with_liquidity c totalSupply pool) eqn:E.
    + rewrite IH, filter_cons_True by (by apply Is_true_true).
      by rewrite <- app_assoc.
    + rewrite IH, filter_cons_False; [done|]. by apply Is_true_false.
Qed.

Lemma with_liquidity_holds (pool : PoolsView.PoolInfo) :
  PoolsView.with_liquidity c totalSupply pool = true <->
  holds_liquidity c totalSupply pool.
Proof.
  unfold PoolsView.with_liquidity, holds_liquidity. split.
  - destruct (erc20_balanceOf c (PoolsView.tokenA pool) _) as [rA|]; [|done].
    destruct (erc20_balanceOf c (PoolsView.tokenB pool) _) as [rB|]; [|done].
    destruct (totalSupply _) as [s|]; [|done]. cbn [mbind option_bind].
    intros [[HA HB]%andb_true_iff HS]%andb_true_iff.
    by exists rA, rB, s.
  - intros (rA & rB & s & -> & -> & -> & HA & HB & HS).
    cbn [mbind option_bind]. by rewrite HA, HB, HS.
Qed.

End Listing.

(** X19.  The Pools view lists, in the order of the factory's indices, exactly
    the pools whose address and tokens can be read and that hold
    liquidity: both balances and the supply of LP tokens readable and,
    formatted, above 0.000001.  A pool with a reserve at or below the
    threshold, or with a read that rejects, is never listed. *)
Theorem listing_holds_pools_with_liquidity (c : Chain)
    (totalSupply : address -> option N) (poolCountNum : nat) :
  let listed := PoolsView.fetchPools c totalSupply poolCountNum in
  listed =
    filter (fun pool => PoolsView.with_liquidity c totalSupply pool)
           (omap (pool_info_at c) (seq 0 poolCountNum))
  /\ forall pool,
      pool ∈ listed <->
      (exists i, (i < poolCountNum)%nat /\ pool_info_at c i = Some pool)
      /\ holds_liquidity c totalSupply pool.
Proof.
  cbv zeta. unfold PoolsView.fetchPools.
  rewrite poolsWithLiquidity_loop_spec, poolList_loop_spec. simpl.
  split; [done|]. intros pool.
  rewrite list_elem_of_filter, list_elem_of_omap, <- with_liquidity_holds.
  split.
  - intros [Hliq (i & Hi%elem_of_seq & Hinfo)]. split; [|by apply Is_true_true].
    exists i. split; [lia|done].
  - intros [(i & Hi & Hinfo) Hliq]. split; [by apply Is_true_true|].
    exists i. split; [|done]. apply elem_of_seq. lia.
Qed.

(** ** Total value locked *)

Section TotalValue.
Context (c : Chain).

Lemma add_token_elem (seen : list string) (t x : string) :
  x ∈ PoolsView.add_token seen t <-> x ∈ seen \/ x = t.
Proof.
  unfold PoolsView.add_token. case_bool_decide as Hin.
  - split; [by left|]. by intros [?| ->].
  - rewrite elem_of_app, list_elem_of_singleton. done.
Qed.

Lemma uniqueTokens_fold_elem (pools : list PoolsView.PoolInfo)
    (seen : list string) (x : string) :
  x ∈ foldl (fun seen pool =>
               PoolsView.add_token
                 (PoolsView.add_token seen
                    (toLowerCase (PoolsView.tokenA pool)))
                 (toLowerCase (PoolsView.tokenB pool)))
            seen pools
  <-> x ∈ seen
      \/ exists pool, pool ∈ pools
           /\ (x = toLowerCase (PoolsView.tokenA pool)
               \/ x = toLowerCase (PoolsView.tokenB pool)).
Proof.
  revert seen. induction pools as [|pool rest IH]; intros seen; simpl.
  - split; [by left|]. intros [?|(p & Hp & _)]; [done|].
    by apply elem_of_nil in Hp.
  - rewrite IH, !add_token_elem. split.
    + intros [[[?| ->]| ->]|(p & Hp & Hx)].
      * by left.
      * right. exists pool. split; [by left | by left].
      * right. exists pool. split; [by left | by right].
      * right. exists p. split; [by right | done].
    + intros [?|(p & [->|Hp]%elem_of_cons & [Hx|Hx])].
      * left. left. by left.
      * left. left. by right.
      * left. by right.
      * right. exists p. split; [done | by left].
      * right. exists p. split; [done | by right].
Qed.

(** The tokens priced are the two tokens of every pool. *)
Lemma uniqueTokens_elem (pools : list PoolsView.PoolInfo) (x : string) :
  x ∈ PoolsView.uniqueTokens pools <->
  exists pool, pool ∈ pools
    /\ (x = toLowerCase (PoolsView.tokenA pool)
        \/ x = toLowerCase (PoolsView.tokenB pool)).
Proof.
  unfold PoolsView.uniqueTokens. rewrite uniqueTokens_fold_elem.
  split; [|by right]. intros [Hnil|H]; [|done]. by apply elem_of_nil in Hnil.
Qed.

Lemma tokenPrices_fold_returns (fuel : nat) (pools : list PoolsView.PoolInfo)
    (tokens : list string) (acc : option (gmap string num)) :
  is_Some
    (foldl (fun acc token =>
              m ← acc;
              price ← PoolsView.getTokenPriceInUSD fuel c token pools;
              Some (<[ token := price ]> m))
           acc tokens)
  <-> is_Some acc
      /\ forall token, token ∈ tokens ->
           is_Some (PoolsView.getTokenPriceInUSD fuel c token pools).
Proof.
  revert acc. induction tokens as [|token rest IH]; intros acc; simpl.
  - split; [intros H; split; [done|] | by intros [? _]].
    intros token Hin. by apply elem_of_nil in Hin.
  - rewrite IH. split.
    + intros [Hacc Hrest]. destruct acc as [m|]; [|by destruct Hacc].
      simpl in Hacc.
      destruct (PoolsView.getTokenPriceInUSD fuel c token pools) eqn:E;
        [|by destruct Hacc].
      split; [by eexists|]. intros t [->|Ht]%elem_of_cons; [|by apply Hrest].
      rewrite E. by eexists.
    + intros [[m ->] Hall]. split.
      * destruct (Hall token (list_elem_of_here _ _)) as [p ->]. by eexists.
      * intros t Ht. apply Hall. by right.
Qed.

Lemma tokenPrices_returns (fuel : nat) (pools : list PoolsView.PoolInfo) :
  is_Some (PoolsView.tokenPrices fuel c pools) <->
  forall token, token ∈ PoolsView.uniqueTokens pools ->
    is_Some (PoolsView.getTokenPriceInUSD fuel c token pools).
Proof.
  unfold PoolsView.tokenPrices. rewrite tokenPrices_fold_returns.
  split; [by intros [_ ?] | intros H; split; [by eexists | done]].
Qed.

End TotalValue.

(** X20.  The total value locked is computed exactly when the price resolution
    of both tokens of every pool returns: one token whose resolution does
    not return keeps the whole total from being set. *)
Theorem total_value_needs_every_price (c : Chain) (fuel : nat)
    (pools : list PoolsView.PoolInfo) :
  pools <> [] ->
  is_Some (PoolsView.calculateMetrics fuel c pools) <->
  forall pool, pool ∈ pools ->
    is_Some (PoolsView.getTokenPriceInUSD fuel c
               (toLowerCase (PoolsView.tokenA pool)) pools)
    /\ is_Some (PoolsView.getTokenPriceInUSD fuel c
                  (toLowerCase (PoolsView.tokenB pool)) pools).
Proof.
  intros Hne.
  assert (Hcalc : is_Some (PoolsView.calculateMetrics fuel c pools)
                  <-> is_Some (PoolsView.tokenPrices fuel c pools)).
  { unfold PoolsView.calculateMetrics. destruct pools as [|pool0 rest]; [done|].
    destruct (PoolsView.tokenPrices fuel c (pool0 :: rest)); simpl;
      by rewrite !is_Some_alt. }
  rewrite Hcalc, tokenPrices_returns. split.
  - intros Hall pool Hin.
    split; apply Hall, uniqueTokens_elem; exists pool;
      (split; [done|]); [by left | by right].
  - intros Hall token (pool & Hin & [->| ->])%uniqueTokens_elem;
      by apply (Hall pool Hin).
Qed.

(** ** The value of a USDC pool *)

Section UsdcPool.
Context (c : Chain).





End UsdcPool.


(** ** The events the metrics request returns *)

Section Request.

Lemma older_total : Total PoolsView.older.
Proof. intros a b. unfold PoolsView.older. lia. Qed.

Lemma older_trans : Transitive PoolsView.older.
Proof. intros a b d. unfold PoolsView.older. lia. Qed.

End Request.

(** X22.  The metrics request returns at most 10000 events, oldest first, all
    of them stored events of the last thirty days.  Together with the
    events it leaves out it makes up the whole window; the events left
    out are the newest ones, and none is left out when the window holds
    at most 10000 events. *)
Theorem request_returns_oldest_events_first (now : Z)
    (tbl : list SwapEventRow) :
  let window := filter (in_window now) tbl in
  let events := PoolsView.select_recent now tbl in
  (length events <= Z.to_nat 10000)%nat
  /\ StronglySorted PoolsView.older events
  /\ exists dropped,
       events ++ dropped ≡ₚ window
       /\ (forall e d, e ∈ events -> d ∈ dropped ->
                       se_timestamp e <= se_timestamp d)
       /\ ((length window <= Z.to_nat 10000)%nat -> dropped = []).
Proof.
  cbv zeta. unfold PoolsView.select_recent.
  change (fun r : SwapEventRow => now - PoolsView.THIRTY_DAYS <= se_timestamp r)
    with (in_window now).
  set (sorted := merge_sort PoolsView.older (filter (in_window now) tbl)).
  assert (Hperm : sorted ≡ₚ filter (in_window now) tbl)
    by apply merge_sort_Permutation.
  assert (Hsorted : StronglySorted PoolsView.older sorted).
  { apply StronglySorted_merge_sort; [apply older_trans | apply older_total]. }
  rewrite <- (take_drop (Z.to_nat 10000) sorted) in Hsorted, Hperm.
  split; [rewrite length_take; lia|].
  split; [by apply StronglySorted_app_1_l in Hsorted|].
  exists (drop (Z.to_nat 10000) sorted). split; [done|]. split.
  - intros e d He Hd.
    apply (StronglySorted_app_1_elem_of _ _ _ e d Hsorted He Hd).
  - intros Hlen. apply drop_ge.
    rewrite take_drop in Hperm. by rewrite Hperm.
Qed.

(** ** Daily buckets and totals *)

Section Buckets.




End Buckets.


(** ** The further statements at concrete chains *)

Lemma stored_liquidity_finite_witness :
  Fixtures.drifted_pool_row ∈ pools empty_store
  \/ finite_nonneg (pr_total_liquidity Fixtures.drifted_pool_row).
Proof.
  apply (stored_liquidity_finite Fixtures.drifted_chain Fixtures.clock10
           [Fixtures.P1] (empty_store, 0%nat)).
  vm_compute. apply list_elem_of_here.
Defined.

Lemma one_unreadable_block_drops_all_events_witness :
  Indexer.processSwapEvents Fixtures.block_104_down_chain Fixtures.P1 101 105
    = []
  /\ length (Indexer.processSwapEvents Fixtures.drifted_chain Fixtures.P1
               101 105) = 2%nat.
Proof.
  split; [|reflexivity].
  apply (one_unreadable_block_drops_all_events Fixtures.block_104_down_chain
           Fixtures.P1 USDC_ADDRESS Fixtures.TKN 101 105
           [Fixtures.swap_a_in; Fixtures.swap_none_in; Fixtures.swap_b_in]
           Fixtures.swap_b_in
           {| amountAIn := Some 0%N; amountBIn := Some 9%N;
              amountAOut := Some 4%N; amountBOut := Some 0%N |}).
  - reflexivity.
  - reflexivity.
  - reflexivity.
  - do 2 apply list_elem_of_further. apply list_elem_of_here.
  - reflexivity.
  - right. simpl. lia.
  - reflexivity.
Defined.

Lemma last_swap_of_a_hash_wins_witness :
  let out :=
    swap_events
      (Indexer.storeSwapEvents [Fixtures.first_leg; Fixtures.second_leg]
         empty_store) in
  Indexer.swap_row Fixtures.second_leg ∈ out
  /\ forall r, r ∈ out -> se_tx_hash r = "0xabc" ->
               r = Indexer.swap_row Fixtures.second_leg.
Proof.
  apply (last_swap_of_a_hash_wins [Fixtures.first_leg] []
           Fixtures.second_leg empty_store).
  intros e He. by apply elem_of_nil in He.
Defined.

Lemma swap_hashes_never_lost_witness :
  has_key se_tx_hash "0xabc"
    (swap_events (Indexer.w_store
       (Indexer.run Fixtures.clock10
          [Fixtures.logs_down_chain; Fixtures.drifted_chain]
          (Indexer.run Fixtures.clock10 [Fixtures.drifted_chain]
             (Fixtures.fresh_world (Some 100)))))) = true.
Proof.
  apply swap_hashes_never_lost. vm_compute. reflexivity.
Defined.

Lemma unique_keys_kept_witness :
  let out :=
    Indexer.w_store
      (Indexer.run Fixtures.clock10
         [Fixtures.drifted_chain; Fixtures.one_sided_chain]
         (Fixtures.fresh_world (Some 100))) in
  NoDup (se_tx_hash <$> swap_events out)
  /\ NoDup (pr_pool_address <$> pools out).
Proof.
  apply (unique_keys_kept Fixtures.clock10
           [Fixtures.drifted_chain; Fixtures.one_sided_chain]
           (Fixtures.fresh_world (Some 100))).
  - simpl. apply NoDup_nil_2.
  - simpl. apply NoDup_nil_2.
Defined.

Lemma cursor_and_known_pools_only_grow_witness :
  let w := Fixtures.fresh_world (Some 100) in
  let w' :=
    Indexer.run Fixtures.clock10
      [Fixtures.drifted_chain; Fixtures.logs_down_chain] w in
  (exists cur', Indexer.lastProcessedBlock (Indexer.w_state w') = Some cur'
                /\ 100 <= cur')
  /\ Indexer.knownPools (Indexer.w_state w)
       ⊆ Indexer.knownPools (Indexer.w_state w').
Proof.
  apply (cursor_and_known_pools_only_grow Fixtures.clock10
           [Fixtures.drifted_chain; Fixtures.logs_down_chain]
           (Fixtures.fresh_world (Some 100)) 100).
  - reflexivity.
  - lia.
Defined.

Lemma cycle_without_new_blocks_still_stores_pools_witness :
  let w := Fixtures.fresh_world (Some 105) in
  let r := Indexer.index Fixtures.drifted_chain Fixtures.clock10 w in
  r.2 = Indexer.Completed
  /\ Indexer.lastProcessedBlock (Indexer.w_state r.1) = Some 105
  /\ swap_events (Indexer.w_store r.1) = []
  /\ (Indexer.w_store r.1, Indexer.w_ticks r.1)
     = Indexer.storePoolData Fixtures.drifted_chain Fixtures.clock10
         (Indexer.fetchAllPools Fixtures.drifted_chain ∅).1
         (empty_store, 0%nat).
Proof.
  apply (cycle_without_new_blocks_still_stores_pools Fixtures.drifted_chain
           Fixtures.clock10 (Fixtures.fresh_world (Some 105)) 105 105).
  - reflexivity.
  - lia.
  - reflexivity.
  - lia.
Defined.

Lemma first_cycle_looks_back_10000_blocks_witness :
  let r := Indexer.index Fixtures.drifted_chain Fixtures.clock10
             (Fixtures.fresh_world None) in
  r.2 = Indexer.Completed
  /\ Indexer.lastProcessedBlock (Indexer.w_state r.1) = Some 105.
Proof.
  exact (first_cycle_looks_back_10000_blocks Fixtures.drifted_chain
           Fixtures.clock10 (Fixtures.fresh_world None) 105
           eq_refl eq_refl).
Defined.

Lemma two_level_route_returns_witness :
  is_Some (PoolsView.getTokenPriceInUSD 2 Fixtures.two_hop_chain
             Fixtures.TKN Fixtures.two_hop_pools).
Proof.
  apply two_level_route_returns. intros pool Hin Hpair.
  apply elem_of_cons in Hin as [->|Hin].
  - exists (Fixtures.pool_info Fixtures.mid_usdc_pool). split.
    + apply list_elem_of_further, list_elem_of_here.
    + split; [right; by vm_compute | vm_compute; by eexists].
  - apply list_elem_of_singleton in Hin as ->. by vm_compute in Hpair.
Defined.

Lemma emptied_pool_prices_token_at_infinity_witness :
  PoolsView.getTokenPriceInUSD 1 Fixtures.one_sided_chain Fixtures.TKN
    [Fixtures.pool_info Fixtures.one_sided_pool] = Some PInf.
Proof.
  apply (emptied_pool_prices_token_at_infinity Fixtures.one_sided_chain
           0 Fixtures.TKN (Fixtures.pool_info Fixtures.one_sided_pool) []
           (1000 * 10 ^ 6)%N).
  - by vm_compute.
  - reflexivity.
  - reflexivity.
  - reflexivity.
  - by vm_compute.
  - reflexivity.
Defined.

Lemma total_value_needs_every_price_witness :
  is_Some (PoolsView.calculateMetrics 1 Fixtures.drifted_chain
             [Fixtures.pool_info Fixtures.drifted_pool]) <->
  forall pool, pool ∈ [Fixtures.pool_info Fixtures.drifted_pool] ->
    is_Some (PoolsView.getTokenPriceInUSD 1 Fixtures.drifted_chain
               (toLowerCase (PoolsView.tokenA pool))
               [Fixtures.pool_info Fixtures.drifted_pool])
    /\ is_Some (PoolsView.getTokenPriceInUSD 1 Fixtures.drifted_chain
                  (toLowerCase (PoolsView.tokenB pool))
                  [Fixtures.pool_info Fixtures.drifted_pool]).
Proof.
  apply total_value_needs_every_price. done.
Defined.


(** The listing of the drifted chain, and of the chain whose pool has
    been emptied of one token. *)
Example listing_of_the_fixtures :
  PoolsView.poolAddress <$>
    PoolsView.fetchPools Fixtures.drifted_chain Fixtures.ten_lp_tokens 1
    = [Fixtures.P1]
  /\ PoolsView.fetchPools Fixtures.one_sided_chain Fixtures.ten_lp_tokens 1
     = [].
Proof. by vm_compute. Qed.

(** ** From the extractor to the store *)

Section Persisted.


End Persisted.


